(** * Basic Talker: the session controller of [App.tsx] and the PCM codec

    A shallow embedding of the voice-chat component: the React state and
    refs of [App] become one record, every callback ([stopSession],
    [startSession], [onopen], [onmessage], [onerror], [onclose], a source
    node's [onended], the unmount effect, the button's [onClick]) becomes a
    function on that record, and the browser and SDK objects the callbacks
    reach (output source nodes, remote session handles, microphone
    captures) are kept in finite maps next to it.

    What the callbacks read from outside the component comes in as an
    argument: the device clock, the decoded payload, the readings of
    [Date.now()], and how each awaited step of [startSession] settles. A
    callback runs from its call to its end before the next one starts.

    JavaScript numbers that are times in seconds are exact rationals ([Q]),
    compared with [==]; [Date.now()] readings are integers ([Z]); strings
    are lists of UTF-16 code units. Line numbers are those of [App.tsx]. *)

From Stdlib Require Import ZArith QArith Qabs Qround Qminmax Lia Lqa List String Ascii
  Sorted.
From stdpp Require Import gmap.

Import ListNotations.
Local Open Scope Z_scope.

(** ** JavaScript strings *)

Module JsString.

(** A string is its sequence of UTF-16 code units. *)
Definition t : Type := list N.

Definition of_string (s : string) : t :=
  List.map (fun a => N_of_ascii a) (list_ascii_of_string s).

(** [s1 + s2] *)
Definition concat (s1 s2 : t) : t := (s1 ++ s2)%list.

(** ToBoolean on a string: only the empty string is falsy. *)
Definition truthy (s : t) : bool :=
  match s with
  | [] => false
  | _ :: _ => true
  end.

(** ECMAScript WhiteSpace and LineTerminator code points, the ones
    [String.prototype.trim] strips. *)
Definition isWhiteSpace (c : N) : bool :=
  ((c =? 0x0009) || (c =? 0x000A) || (c =? 0x000B) || (c =? 0x000C) ||
   (c =? 0x000D) || (c =? 0x0020) || (c =? 0x00A0) || (c =? 0x1680) ||
   ((0x2000 <=? c) && (c <=? 0x200A)) ||
   (c =? 0x2028) || (c =? 0x2029) || (c =? 0x202F) || (c =? 0x205F) ||
   (c =? 0x3000) || (c =? 0xFEFF))%N.

Fixpoint trimStart (s : t) : t :=
  match s with
  | [] => []
  | c :: r => if isWhiteSpace c then trimStart r else s
  end.

Definition trimEnd (s : t) : t := rev (trimStart (rev s)).

Definition trim (s : t) : t := trimEnd (trimStart s).

(** ToString(undefined), what [+=] appends for a missing property. *)
Definition undefined : t := of_string "undefined".

End JsString.

Abbreviation jsstring := JsString.t.
Abbreviation js := JsString.of_string.

(** ** [types.ts] *)

Inductive SessionStatus : Set :=
| DISCONNECTED
| CONNECTING
| CONNECTED
| ERROR.

(** The string literal type ['user' | 'model']. *)
Inductive EntryType : Set := TyUser | TyModel.

Record TranscriptionEntry : Type := {
  type : EntryType;
  text : jsstring;
  timestamp : Z
}.

#[global] Instance SessionStatus_eq_dec : EqDecision SessionStatus.
Proof. solve_decision. Defined.

(** ** Browser and SDK objects

    Objects are identified by the key they are stored under; a new object
    takes a key no earlier object has. *)

(** [AudioBuffer]: [duration] is its length in sample frames over its sample rate. *)
Record AudioBuffer : Type := {
  bufferLength : N;
  sampleRate : positive
}.

Definition duration (b : AudioBuffer) : Q := Z.of_N (bufferLength b) # sampleRate b.

(** An [AudioBufferSourceNode] on which [start(when)] was called. *)
Record SourceNode : Type := {
  buffer : AudioBuffer;
  startedAt : Q;
  stopped : bool
}.

(** [source.stop()] *)
Definition stop (n : SourceNode) : SourceNode :=
  {| buffer := buffer n; startedAt := startedAt n; stopped := true |}.

(** A microphone [MediaStream] with the capture graph built on it
    ([MediaStreamSource] into [ScriptProcessor] into the destination). *)
Record Capture : Type := {
  tracksLive : bool;
  graphConnected : bool
}.

Inductive SessionHandle : Set := SessionOpen | SessionClosed.

Inductive AudioContextState : Set := suspended | running.

Record AudioContexts : Type := {
  input : AudioContextState;
  output : AudioContextState
}.

(** A thrown value; [err.message] may be missing. *)
Record JsError : Type := { message : option jsstring }.

Inductive Await (A : Type) : Type :=
| Resolves (a : A)
| Rejects (e : JsError).
Arguments Resolves {A} a.
Arguments Rejects {A} e.

(** ** The component [App]: React state, refs, and the objects they reach *)

Record TranscriptionBuffer : Type := {
  user : jsstring;
  model : jsstring
}.

Record App : Type := {
  (* useState *)
  status : SessionStatus;
  isModelTalking : bool;
  transcript : list TranscriptionEntry;
  error : option jsstring;
  (* useRef *)
  audioContexts : option AudioContexts;
  nextStartTime : Q;
  audioSources : gset nat;
  sessionRef : option nat;
  transcriptionBuffer : TranscriptionBuffer;
  (* window._audioCleanup: the capture its closure holds *)
  _audioCleanup : option nat;
  (* objects *)
  nodes : gmap nat SourceNode;
  sessions : gmap nat SessionHandle;
  captures : gmap nat Capture
}.

Definition initialApp : App := {|
  status := DISCONNECTED;
  isModelTalking := false;
  transcript := [];
  error := None;
  audioContexts := None;
  nextStartTime := 0%Q;
  audioSources := ∅;
  sessionRef := None;
  transcriptionBuffer := {| user := []; model := [] |};
  _audioCleanup := None;
  nodes := ∅;
  sessions := ∅;
  captures := ∅
|}.

(** Assignment to one field; the [useState] setters keep their names. *)

Definition setStatus (v : SessionStatus) (s : App) : App := {|
  status := v;
  isModelTalking := isModelTalking s;
  transcript := transcript s;
  error := error s;
  audioContexts := audioContexts s;
  nextStartTime := nextStartTime s;
  audioSources := audioSources s;
  sessionRef := sessionRef s;
  transcriptionBuffer := transcriptionBuffer s;
  _audioCleanup := _audioCleanup s;
  nodes := nodes s;
  sessions := sessions s;
  captures := captures s
|}.

Definition setIsModelTalking (v : bool) (s : App) : App := {|
  status := status s;
  isModelTalking := v;
  transcript := transcript s;
  error := error s;
  audioContexts := audioContexts s;
  nextStartTime := nextStartTime s;
  audioSources := audioSources s;
  sessionRef := sessionRef s;
  transcriptionBuffer := transcriptionBuffer s;
  _audioCleanup := _audioCleanup s;
  nodes := nodes s;
  sessions := sessions s;
  captures := captures s
|}.

Definition setTranscript (v : list TranscriptionEntry) (s : App) : App := {|
  status := status s;
  isModelTalking := isModelTalking s;
  transcript := v;
  error := error s;
  audioContexts := audioContexts s;
  nextStartTime := nextStartTime s;
  audioSources := audioSources s;
  sessionRef := sessionRef s;
  transcriptionBuffer := transcriptionBuffer s;
  _audioCleanup := _audioCleanup s;
  nodes := nodes s;
  sessions := sessions s;
  captures := captures s
|}.

Definition setError (v : option jsstring) (s : App) : App := {|
  status := status s;
  isModelTalking := isModelTalking s;
  transcript := transcript s;
  error := v;
  audioContexts := audioContexts s;
  nextStartTime := nextStartTime s;
  audioSources := audioSources s;
  sessionRef := sessionRef s;
  transcriptionBuffer := transcriptionBuffer s;
  _audioCleanup := _audioCleanup s;
  nodes := nodes s;
  sessions := sessions s;
  captures := captures s
|}.

Definition set_audioContexts (v : option AudioContexts) (s : App) : App := {|
  status := status s;
  isModelTalking := isModelTalking s;
  transcript := transcript s;
  error := error s;
  audioContexts := v;
  nextStartTime := nextStartTime s;
  audioSources := audioSources s;
  sessionRef := sessionRef s;
  transcriptionBuffer := transcriptionBuffer s;
  _audioCleanup := _audioCleanup s;
  nodes := nodes s;
  sessions := sessions s;
  captures := captures s
|}.

Definition set_nextStartTime (v : Q) (s : App) : App := {|
  status := status s;
  isModelTalking := isModelTalking s;
  transcript := transcript s;
  error := error s;
  audioContexts := audioContexts s;
  nextStartTime := v;
  audioSources := audioSources s;
  sessionRef := sessionRef s;
  transcriptionBuffer := transcriptionBuffer s;
  _audioCleanup := _audioCleanup s;
  nodes := nodes s;
  sessions := sessions s;
  captures := captures s
|}.

Definition set_audioSources (v : gset nat) (s : App) : App := {|
  status := status s;
  isModelTalking := isModelTalking s;
  transcript := transcript s;
  error := error s;
  audioContexts := audioContexts s;
  nextStartTime := nextStartTime s;
  audioSources := v;
  sessionRef := sessionRef s;
  transcriptionBuffer := transcriptionBuffer s;
  _audioCleanup := _audioCleanup s;
  nodes := nodes s;
  sessions := sessions s;
  captures := captures s
|}.

Definition set_sessionRef (v : option nat) (s : App) : App := {|
  status := status s;
  isModelTalking := isModelTalking s;
  transcript := transcript s;
  error := error s;
  audioContexts := audioContexts s;
  nextStartTime := nextStartTime s;
  audioSources := audioSources s;
  sessionRef := v;
  transcriptionBuffer := transcriptionBuffer s;
  _audioCleanup := _audioCleanup s;
  nodes := nodes s;
  sessions := sessions s;
  captures := captures s
|}.

Definition set_transcriptionBuffer (v : TranscriptionBuffer) (s : App) : App := {|
  status := status s;
  isModelTalking := isModelTalking s;
  transcript := transcript s;
  error := error s;
  audioContexts := audioContexts s;
  nextStartTime := nextStartTime s;
  audioSources := audioSources s;
  sessionRef := sessionRef s;
  transcriptionBuffer := v;
  _audioCleanup := _audioCleanup s;
  nodes := nodes s;
  sessions := sessions s;
  captures := captures s
|}.

Definition set_audioCleanup (v : option nat) (s : App) : App := {|
  status := status s;
  isModelTalking := isModelTalking s;
  transcript := transcript s;
  error := error s;
  audioContexts := audioContexts s;
  nextStartTime := nextStartTime s;
  audioSources := audioSources s;
  sessionRef := sessionRef s;
  transcriptionBuffer := transcriptionBuffer s;
  _audioCleanup := v;
  nodes := nodes s;
  sessions := sessions s;
  captures := captures s
|}.

Definition set_nodes (v : gmap nat SourceNode) (s : App) : App := {|
  status := status s;
  isModelTalking := isModelTalking s;
  transcript := transcript s;
  error := error s;
  audioContexts := audioContexts s;
  nextStartTime := nextStartTime s;
  audioSources := audioSources s;
  sessionRef := sessionRef s;
  transcriptionBuffer := transcriptionBuffer s;
  _audioCleanup := _audioCleanup s;
  nodes := v;
  sessions := sessions s;
  captures := captures s
|}.

Definition set_sessions (v : gmap nat SessionHandle) (s : App) : App := {|
  status := status s;
  isModelTalking := isModelTalking s;
  transcript := transcript s;
  error := error s;
  audioContexts := audioContexts s;
  nextStartTime := nextStartTime s;
  audioSources := audioSources s;
  sessionRef := sessionRef s;
  transcriptionBuffer := transcriptionBuffer s;
  _audioCleanup := _audioCleanup s;
  nodes := nodes s;
  sessions := v;
  captures := captures s
|}.

Definition set_captures (v : gmap nat Capture) (s : App) : App := {|
  status := status s;
  isModelTalking := isModelTalking s;
  transcript := transcript s;
  error := error s;
  audioContexts := audioContexts s;
  nextStartTime := nextStartTime s;
  audioSources := audioSources s;
  sessionRef := sessionRef s;
  transcriptionBuffer := transcriptionBuffer s;
  _audioCleanup := _audioCleanup s;
  nodes := nodes s;
  sessions := sessions s;
  captures := v
|}.

(** ** Handlers that may throw

    A handler runs on the component and either completes with a value or
    throws; in both cases the assignments made so far stay. An [async]
    handler is run from its call to its end: a rejected [await] is a throw,
    a resolved one continues at once. *)

Inductive Completion (A : Type) : Type :=
| Normal (a : A) (s : App)
| Thrown (e : JsError) (s : App).
Arguments Normal {A} a s.
Arguments Thrown {A} e s.

Definition Handler (A : Type) : Type := App -> Completion A.

Definition ret {A} (a : A) : Handler A := fun s => Normal a s.

Definition bind {A B} (c : Handler A) (k : A -> Handler B) : Handler B :=
  fun s =>
    match c s with
    | Normal a s' => k a s'
    | Thrown e s' => Thrown e s'
    end.

Definition throw {A} (e : JsError) : Handler A := fun s => Thrown e s.

Definition read : Handler App := fun s => Normal s s.

Definition modify (f : App -> App) : Handler unit := fun s => Normal tt (f s).

Definition await {A} (p : Await A) : Handler A :=
  match p with
  | Resolves a => ret a
  | Rejects e => throw e
  end.

(** [try { body } catch (err) { handler }] *)
Definition tryCatch (body : Handler unit) (handler : JsError -> Handler unit) : Handler unit :=
  fun s =>
    match body s with
    | Normal a s' => Normal a s'
    | Thrown e s' => handler e s'
    end.

Definition final {A} (c : Completion A) : App :=
  match c with
  | Normal _ s => s
  | Thrown _ s => s
  end.

Definition threw {A} (c : Completion A) : option JsError :=
  match c with
  | Normal _ _ => None
  | Thrown e _ => Some e
  end.

#[global] Instance Handler_ret : MRet Handler := @ret.
#[global] Instance Handler_bind : MBind Handler := fun A B k c => bind c k.

(** ** [initAudio] (lines 25-38) *)

Record StartEnv : Type := {
  (* the two [new AudioContext(...)] of line 27-30 *)
  newAudioContexts : Await AudioContexts;
  resumeInput : Await unit;
  resumeOutput : Await unit;
  (* [new GoogleGenAI(...)] *)
  newGoogleGenAI : Await unit;
  (* [navigator.mediaDevices.getUserMedia] *)
  getUserMedia : Await unit;
  (* [ai.live.connect]: whether [onopen] is called while the promise is
     awaited, and how the promise settles *)
  connectOpens : bool;
  connect : Await unit
}.

Definition resumed_input (c : AudioContexts) : AudioContexts :=
  {| input := running; output := output c |}.

Definition resumed_output (c : AudioContexts) : AudioContexts :=
  {| input := input c; output := running |}.

Definition initAudio (env : StartEnv) : Handler unit :=
  s ← read;
  match audioContexts s with
  | None =>
      c ← await (newAudioContexts env);
      modify (set_audioContexts (Some c))
  | Some _ => ret tt
  end;;
  s ← read;
  match audioContexts s with
  | Some c =>
      match input c with
      | suspended =>
          await (resumeInput env);;
          modify (set_audioContexts (Some (resumed_input c)))
      | running => ret tt
      end
  | None => ret tt
  end;;
  s ← read;
  match audioContexts s with
  | Some c =>
      match output c with
      | suspended =>
          await (resumeOutput env);;
          modify (set_audioContexts (Some (resumed_output c)))
      | running => ret tt
      end
  | None => ret tt
  end.

(** ** [stopSession] (lines 40-49) *)

(** [session.close()] *)
Definition close (h : nat) (s : App) : App :=
  set_sessions (<[h := SessionClosed]> (sessions s)) s.

(** [audioSources.current.forEach((source) => source.stop())] *)
Definition stopSources (s : App) : App :=
  set_nodes (set_fold (fun id ns => alter stop id ns) (nodes s) (audioSources s)) s.

Definition stopSession (s : App) : App :=
  let s :=
    match sessionRef s with
    | Some h => set_sessionRef None (close h s)
    | None => s
    end in
  let s := stopSources s in
  let s := set_audioSources ∅ s in
  let s := setStatus DISCONNECTED s in
  setIsModelTalking false s.

(** ** [startSession] (lines 51-169) *)

(** The microphone stream [getUserMedia] resolves with. *)
Definition acquireStream : Handler nat :=
  s ← read;
  let stream := fresh (dom (captures s)) in
  modify (set_captures
            (<[stream := {| tracksLive := true; graphConnected := false |}]> (captures s)));;
  ret stream.

(** The session object the promise of [ai.live.connect] resolves with. *)
Definition openSession : Handler nat :=
  s ← read;
  let h := fresh (dom (sessions s)) in
  modify (set_sessions (<[h := SessionOpen]> (sessions s)));;
  ret h.

Definition connectCapture (c : Capture) : Capture :=
  {| tracksLive := tracksLive c; graphConnected := true |}.

(** The [onopen] callback (lines 63-88) of the session started on [stream].
    [audioContexts.current!.input] throws on a null ref, after the status
    was set. Sending the captured frames leaves the component as it is and
    is not modelled. *)
Definition onopen (stream : nat) (s : App) : App :=
  let s := setStatus CONNECTED s in
  match audioContexts s with
  | None => s
  | Some _ =>
      let s := set_captures (alter connectCapture stream (captures s)) s in
      set_audioCleanup (Some stream) s
  end.

Definition startFailedMessage : jsstring :=
  js "Could not access microphone or start AI session.".

(** [err.message || '...'] *)
Definition messageOr (err : JsError) (default : jsstring) : jsstring :=
  match message err with
  | Some m => if JsString.truthy m then m else default
  | None => default
  end.

(** The [try] block (lines 53-163). *)
Definition startBody (env : StartEnv) : Handler unit :=
  modify (setStatus CONNECTING);;
  modify (setError None);;
  initAudio env;;
  await (newGoogleGenAI env);;
  await (getUserMedia env);;
  stream ← acquireStream;
  (if connectOpens env then modify (onopen stream) else ret tt);;
  await (connect env);;
  session ← openSession;
  modify (set_sessionRef (Some session)).

(** The [catch] block (lines 164-168). *)
Definition startCatch (err : JsError) : Handler unit :=
  modify (setError (Some (messageOr err startFailedMessage)));;
  modify (setStatus DISCONNECTED).

Definition startSession (env : StartEnv) : Handler unit :=
  tryCatch (startBody env) startCatch.

(** ** [onmessage] (lines 89-142) *)

Module Msg.

Record InlineData : Type := { data : option jsstring }.
Record Part : Type := { inlineData : option InlineData }.
Record Content : Type := { parts : list Part }.
Record Transcription : Type := { text : option jsstring }.

Record ServerContent : Type := {
  modelTurn : option Content;
  interrupted : bool;
  inputTranscription : option Transcription;
  outputTranscription : option Transcription;
  turnComplete : bool
}.

Record LiveServerMessage : Type := { serverContent : option ServerContent }.

(** [message.serverContent?.modelTurn?.parts[0]?.inlineData?.data] *)
Definition base64Audio (m : LiveServerMessage) : option jsstring :=
  sc ← serverContent m;
  mt ← modelTurn sc;
  p ← head (parts mt);
  i ← inlineData p;
  data i.

End Msg.

Record MessageEnv : Type := {
  (* [outputCtx.currentTime] *)
  currentTime : Q;
  (* [decodeAudioData(decode(base64Audio), outputCtx, 24000, 1)] *)
  decoded : Await AudioBuffer;
  (* the value of the k-th call of [Date.now()] the handler makes *)
  dateNow : nat -> Z
}.

(** Lines 93-109: schedule one decoded buffer. *)
Definition enqueue (env : MessageEnv) : Handler unit :=
  modify (setIsModelTalking true);;
  modify (fun s => set_nextStartTime (Qmax (nextStartTime s) (currentTime env)) s);;
  buffer ← await (decoded env);
  modify (fun s =>
    let source := fresh (dom (nodes s)) in
    let s :=
      set_nodes (<[source := {| buffer := buffer;
                                startedAt := nextStartTime s;
                                stopped := false |}]> (nodes s)) s in
    let s := set_nextStartTime (nextStartTime s + duration buffer)%Q s in
    set_audioSources ({[source]} ∪ audioSources s) s).

(** Lines 114-117. *)
Definition interrupt (s : App) : App :=
  let s := stopSources s in
  let s := set_audioSources ∅ s in
  let s := set_nextStartTime 0%Q s in
  setIsModelTalking false s.

(** [buffer += transcription.text] *)
Definition appendText (buf : jsstring) (t : Msg.Transcription) : jsstring :=
  JsString.concat buf (default JsString.undefined (Msg.text t)).

Definition appendUser (t : Msg.Transcription) (s : App) : App :=
  set_transcriptionBuffer
    {| user := appendText (user (transcriptionBuffer s)) t;
       model := model (transcriptionBuffer s) |} s.

Definition appendModel (t : Msg.Transcription) (s : App) : App :=
  set_transcriptionBuffer
    {| user := user (transcriptionBuffer s);
       model := appendText (model (transcriptionBuffer s)) t |} s.

(** Lines 129-140. [Date.now()] is called once per entry built, the user
    entry's call first. *)
Definition flushTurn (env : MessageEnv) (s : App) : App :=
  let userText := JsString.trim (user (transcriptionBuffer s)) in
  let modelText := JsString.trim (model (transcriptionBuffer s)) in
  let s :=
    if JsString.truthy userText || JsString.truthy modelText then
      setTranscript
        (transcript s ++
         (if JsString.truthy userText
          then [ {| type := TyUser; text := userText;
                    timestamp := dateNow env 0%nat |} ]
          else []) ++
         (if JsString.truthy modelText
          then [ {| type := TyModel; text := modelText;
                    timestamp :=
                      dateNow env (if JsString.truthy userText then 1 else 0)%nat + 1 |} ]
          else [])) s
    else s in
  set_transcriptionBuffer {| user := []; model := [] |} s.

Definition onmessage (env : MessageEnv) (m : Msg.LiveServerMessage) : Handler unit :=
  match Msg.base64Audio m with
  | Some d => if JsString.truthy d then enqueue env else ret tt
  | None => ret tt
  end;;
  match Msg.serverContent m with
  | None => ret tt
  | Some sc =>
      (if Msg.interrupted sc then modify interrupt else ret tt);;
      match Msg.inputTranscription sc with
      | Some t => modify (appendUser t)
      | None => ret tt
      end;;
      match Msg.outputTranscription sc with
      | Some t => modify (appendModel t)
      | None => ret tt
      end;;
      (if Msg.turnComplete sc then modify (flushTurn env) else ret tt)
  end.

(** ** The other callbacks *)

Definition connectionErrorMessage : jsstring :=
  js "A connection error occurred. Please try again.".

(** Lines 143-147. *)
Definition onerror (s : App) : App :=
  stopSession (setError (Some connectionErrorMessage) s).

(** Lines 148-150. *)
Definition onclose (s : App) : App := setStatus DISCONNECTED s.

(** [source.onended] (lines 102-105). *)
Definition onended (source : nat) (s : App) : App :=
  let s := set_audioSources (audioSources s ∖ {[source]}) s in
  if decide (size (audioSources s) = 0%nat) then setIsModelTalking false s else s.

(** The closure stored in [window._audioCleanup] (lines 83-87). *)
Definition releaseCapture (c : Capture) : Capture :=
  {| tracksLive := false; graphConnected := false |}.

Definition audioCleanup (stream : nat) (s : App) : App :=
  set_captures (alter releaseCapture stream (captures s)) s.

(** The effect cleanup run on unmount (lines 173-176). *)
Definition unmount (s : App) : App :=
  let s := stopSession s in
  match _audioCleanup s with
  | Some stream => audioCleanup stream s
  | None => s
  end.

(** The button (lines 219-221): disabled while connecting, otherwise it
    stops a connected session and starts one in every other state. *)
Definition onClick (env : StartEnv) (s : App) : App :=
  match status s with
  | CONNECTING => s
  | CONNECTED => stopSession s
  | _ => final (startSession env s)
  end.

(** ** Runs of the component *)

Inductive Event : Type :=
| Click (env : StartEnv)
| StartSession (env : StartEnv)
| StopSession
| OnOpen (stream : nat)
| OnMessage (env : MessageEnv) (m : Msg.LiveServerMessage)
| OnError
| OnClose
| OnEnded (source : nat)
| Unmount.

Definition step (s : App) (e : Event) : App :=
  match e with
  | Click env => onClick env s
  | StartSession env => final (startSession env s)
  | StopSession => stopSession s
  | OnOpen stream => onopen stream s
  | OnMessage env m => final (onmessage env m s)
  | OnError => onerror s
  | OnClose => onclose s
  | OnEnded source => onended source s
  | Unmount => unmount s
  end.

Definition run (s : App) (es : list Event) : App := fold_left step es s.

(** ** The PCM codec *)

Module PcmCodec.

(** [utils/audioUtils], from which [App.tsx] imports [decode],
    [decodeAudioData] and [createPcmBlob], is not among the sources; the
    codec below is the one of the specification's section 4.1. Samples are
    rationals: a 32-bit float is one, its product with 32767 is exact in
    double precision, and so is an integer divided by 32768. *)

(** Modelled from the spec: the conversion of the scaled sample to an
    integer, which [createPcmBlob] performs and the specification leaves
    open; it is a parameter of [encode]. *)
Inductive Rounding : Set := Truncate | Floor | Ceiling | Nearest.

(** Toward zero, as a store into an [Int16Array] converts. *)
Definition Qtruncate (x : Q) : Z :=
  if Qle_bool 0 x then Qfloor x else Qceiling x.

Definition toInteger (r : Rounding) (x : Q) : Z :=
  match r with
  | Truncate => Qtruncate x
  | Floor => Qfloor x
  | Ceiling => Qceiling x
  | Nearest => Qfloor (x + (1 # 2))
  end.

(** Clamping to the signed 16-bit range. *)
Definition clamp16 (z : Z) : Z := Z.max (-32768) (Z.min 32767 z).

(** Modelled from the spec: the per-sample step of [encode], missing with
    [utils/audioUtils]: "maps each float sample to a 16-bit signed integer
    by scaling by 32767 and clamping to the signed 16-bit range". *)
Definition quantize (r : Rounding) (x : Q) : Z :=
  clamp16 (toInteger r (x * 32767)).

(** The two bytes of a 16-bit signed integer, low byte first. *)
Definition littleEndian (v : Z) : list Z :=
  let u := v mod 65536 in [u mod 256; u / 256].

(** Modelled from the spec: [encode] of section 4.1, missing with
    [utils/audioUtils]: each sample quantized and "serialized
    little-endian". *)
Definition encode (r : Rounding) (samples : list Q) : list Z :=
  flat_map (fun x => littleEndian (quantize r x)) samples.

(** The 16-bit signed integer of two bytes, low byte first. *)
Definition int16 (lo hi : Z) : Z :=
  let u := lo + 256 * hi in
  if u <? 32768 then u else u - 65536.

(** Modelled from the spec: [decode] of section 4.1, missing with
    [utils/audioUtils]: the "inverse mapping, dividing by 32768", which
    "truncates the trailing partial sample". *)
Fixpoint decode (bytes : list Z) : list Q :=
  match bytes with
  | lo :: hi :: rest => (int16 lo hi # 32768) :: decode rest
  | _ => []
  end.

(** Two sequences of the same length, each element of the second within
    [tolerance] of the element of the first at its place. *)
Definition within (tolerance : Q) (samples decoded : list Q) : Prop :=
  Forall2 (fun x y => Qabs (y - x) <= tolerance)%Q samples decoded.

Definition inRange (x : Q) : Prop := (-1 <= x /\ x <= 1)%Q.

End PcmCodec.

(** ** Sample inputs *)

(** Messages that carry one thing only. *)
Definition contentOnly (audio : option jsstring) (interrupted turnComplete : bool) :
  Msg.LiveServerMessage :=
  {| Msg.serverContent := Some
       {| Msg.modelTurn :=
            match audio with
            | Some d =>
                Some {| Msg.parts := [ {| Msg.inlineData := Some {| Msg.data := Some d |} |} ] |}
            | None => None
            end;
          Msg.interrupted := interrupted;
          Msg.inputTranscription := None;
          Msg.outputTranscription := None;
          Msg.turnComplete := turnComplete |} |}.

(** The events that carry the interruption flag. *)
Definition interrupts (e : Event) : bool :=
  match e with
  | OnMessage _ m =>
      match Msg.serverContent m with
      | Some sc => Msg.interrupted sc
      | None => false
      end
  | _ => false
  end.

Definition sampleBuffer (frames : N) : AudioBuffer :=
  {| bufferLength := frames; sampleRate := 24000 |}.

(** The device clock reads [clock], the payload decodes to [frames] sample
    frames, and the k-th [Date.now()] returns [now + k]. *)
Definition sampleEnv (clock : Q) (frames : N) (now : Z) : MessageEnv :=
  {| currentTime := clock;
     decoded := Resolves (sampleBuffer frames);
     dateNow := fun k => now + Z.of_nat k |}.

(** Every step of [startSession] succeeds; [opens] tells whether [onopen]
    is called before the session promise resolves. *)
Definition startsFine (opens : bool) : StartEnv :=
  {| newAudioContexts := Resolves {| input := suspended; output := running |};
     resumeInput := Resolves tt;
     resumeOutput := Resolves tt;
     newGoogleGenAI := Resolves tt;
     getUserMedia := Resolves tt;
     connectOpens := opens;
     connect := Resolves tt |}.

(** The user refuses the microphone. *)
Definition permissionDenied : StartEnv :=
  {| newAudioContexts := Resolves {| input := running; output := running |};
     resumeInput := Resolves tt;
     resumeOutput := Resolves tt;
     newGoogleGenAI := Resolves tt;
     getUserMedia := Rejects {| message := Some (js "Permission denied") |};
     connectOpens := false;
     connect := Resolves tt |}.

(** The remote end refuses the connection, with an error without message. *)
Definition connectionRefused : StartEnv :=
  {| newAudioContexts := Resolves {| input := running; output := running |};
     resumeInput := Resolves tt;
     resumeOutput := Resolves tt;
     newGoogleGenAI := Resolves tt;
     getUserMedia := Resolves tt;
     connectOpens := false;
     connect := Rejects {| message := None |} |}.

(** ** Relations between the component before and after a callback *)

(** [handler_rel R h]: however [h] completes, the component it leaves is
    related by [R] to the one it was called on. *)
Definition handler_rel {A} (R : App -> App -> Prop) (h : Handler A) : Prop :=
  forall s, R s (final (h s)).

(** The cursor did not go back. *)
Definition cursor_le (s s' : App) : Prop :=
  (nextStartTime s <= nextStartTime s')%Q.

(** The status is the one before, or one of the three the controller
    assigns. *)
Definition status_assigned (s s' : App) : Prop :=
  status s' = status s \/
  status s' = DISCONNECTED \/ status s' = CONNECTING \/ status s' = CONNECTED.

(** The error the [try] block of [startSession] meets first on component
    [s]: the outcomes are consulted in program order, the audio contexts
    being built only when the ref is null and resumed only when suspended. *)
Definition firstRejection (env : StartEnv) (s : App) : option JsError :=
  match (match audioContexts s with
         | Some c => Resolves c
         | None => newAudioContexts env
         end) with
  | Rejects e => Some e
  | Resolves c =>
      match (match input c with suspended => resumeInput env | running => Resolves tt end) with
      | Rejects e => Some e
      | Resolves _ =>
          match (match output c with suspended => resumeOutput env | running => Resolves tt end) with
          | Rejects e => Some e
          | Resolves _ =>
              match newGoogleGenAI env with
              | Rejects e => Some e
              | Resolves _ =>
                  match getUserMedia env with
                  | Rejects e => Some e
                  | Resolves _ =>
                      match connect env with
                      | Rejects e => Some e
                      | Resolves _ => None
                      end
                  end
              end
          end
      end
  end.

(** ** The rendering of the transcript and of the error

    [Transcript.tsx]: what the component returns, as data. *)

Module TranscriptView.

(** One rendered entry: its React key, whether it is aligned to the end
    of the row (['items-end']), the speaker label and the text. *)
Record Row : Type := {
  key : Z;
  alignedEnd : bool;
  label : jsstring;
  bubble : jsstring
}.

Inductive View : Type :=
| Placeholder
| Rows (rows : list Row).

(** The body of [entries.map((entry, idx) => ...)] (lines 30-46). *)
Definition row (idx : nat) (entry : TranscriptionEntry) : Row :=
  {| key := timestamp entry + Z.of_nat idx;
     alignedEnd := match type entry with TyUser => true | TyModel => false end;
     label := match type entry with TyUser => js "You" | TyModel => js "Gemini" end;
     bubble := text entry |}.

(** Lines 17-48. *)
Definition render (entries : list TranscriptionEntry) : View :=
  if decide (List.length entries = 0%nat) then Placeholder
  else Rows (imap row entries).

End TranscriptView.

(** The error banner of [App] (lines 206-210): [{error && (...)}]. *)
Definition errorBanner (s : App) : option jsstring :=
  match error s with
  | Some m => if JsString.truthy m then Some m else None
  | None => None
  end.

(** ** Further relations and invariants *)

(** [P] holds after when it held before. *)
Definition keeps (P : App -> Prop) (s s' : App) : Prop := P s -> P s'.

(** Playback, the transcript and the turn buffer are as they were. *)
Definition conversation_same (s s' : App) : Prop :=
  nodes s' = nodes s /\
  audioSources s' = audioSources s /\
  nextStartTime s' = nextStartTime s /\
  isModelTalking s' = isModelTalking s /\
  transcript s' = transcript s /\
  transcriptionBuffer s' = transcriptionBuffer s.

(** No session handle changed state; new ones may have appeared. *)
Definition sessions_kept (s s' : App) : Prop :=
  forall h st, sessions s !! h = Some st -> sessions s' !! h = Some st.

(** The transcript was extended at its end, if at all. *)
Definition transcript_grows (s s' : App) : Prop :=
  transcript s `prefix_of` transcript s'.

(** Both fields of the turn buffer were extended at their end, if at all. *)
Definition buffer_grows (s s' : App) : Prop :=
  user (transcriptionBuffer s) `prefix_of` user (transcriptionBuffer s') /\
  model (transcriptionBuffer s) `prefix_of` model (transcriptionBuffer s').

(** No microphone stream with live tracks lost them. *)
Definition tracks_kept (s s' : App) : Prop :=
  forall k c, captures s !! k = Some c -> tracksLive c = true ->
    exists c', captures s' !! k = Some c' /\ tracksLive c' = true.

(** The session side of the component is as it was: status, error
    message, audio contexts, session ref and handles, captures and the
    stored cleanup. *)
Definition controller_same (s s' : App) : Prop :=
  status s' = status s /\
  error s' = error s /\
  audioContexts s' = audioContexts s /\
  sessionRef s' = sessionRef s /\
  sessions s' = sessions s /\
  captures s' = captures s /\
  _audioCleanup s' = _audioCleanup s.

(** What [onmessage] does with the content [sc] of a message after its
    audio payload, if any, was scheduled (lines 112-141): none of these
    steps can throw. *)
Definition afterAudio (env : MessageEnv) (sc : Msg.ServerContent) (s : App) : App :=
  let s := if Msg.interrupted sc then interrupt s else s in
  let s :=
    match Msg.inputTranscription sc with
    | Some t => appendUser t s
    | None => s
    end in
  let s :=
    match Msg.outputTranscription sc with
    | Some t => appendModel t s
    | None => s
    end in
  if Msg.turnComplete sc then flushTurn env s else s.

(** The audio step of [onmessage] (lines 91-110). *)
Definition audioStep (env : MessageEnv) (m : Msg.LiveServerMessage) : Handler unit :=
  match Msg.base64Audio m with
  | Some d => if JsString.truthy d then enqueue env else ret tt
  | None => ret tt
  end.

(** The transcript and the turn buffer are as they were. *)
Definition text_same (s s' : App) : Prop :=
  transcript s' = transcript s /\ transcriptionBuffer s' = transcriptionBuffer s.

(** The events that carry the turn-complete flag. *)
Definition turnCompletes (e : Event) : bool :=
  match e with
  | OnMessage _ m =>
      match Msg.serverContent m with
      | Some sc => Msg.turnComplete sc
      | None => false
      end
  | _ => false
  end.

(** The events that run [onopen]: the callback itself, or a start during
    whose connection it is called. *)
Definition opens (e : Event) : bool :=
  match e with
  | OnOpen _ => true
  | Click env | StartSession env => connectOpens env
  | _ => false
  end.

(** When the buffer of a source node ends. *)
Definition finish (n : SourceNode) : Q := (startedAt n + duration (buffer n))%Q.

(** Every source of the active set is a node that was started and has not
    been stopped. *)
Definition active_scheduled (s : App) : Prop :=
  forall id, id ∈ audioSources s ->
    exists n, nodes s !! id = Some n /\ stopped n = false.

(** No source of the active set plays beyond the cursor, and no two of
    them play at the same time. *)
Definition active_back_to_back (s : App) : Prop :=
  (forall id n, id ∈ audioSources s -> nodes s !! id = Some n ->
     (finish n <= nextStartTime s)%Q) /\
  (forall i j ni nj, i ∈ audioSources s -> j ∈ audioSources s -> i <> j ->
     nodes s !! i = Some ni -> nodes s !! j = Some nj ->
     (finish ni <= startedAt nj)%Q \/ (finish nj <= startedAt ni)%Q).

(** The two invariants of the playback sequencer together. *)
Definition sequencer_ok (s : App) : Prop :=
  active_scheduled s /\ active_back_to_back s.

(** A text that is not empty and neither starts nor ends with white
    space. *)
Definition trimmed (t : jsstring) : Prop :=
  t <> [] /\
  (forall c, head t = Some c -> JsString.isWhiteSpace c = false) /\
  (forall c, last t = Some c -> JsString.isWhiteSpace c = false).

(** The handle in the session ref, if any, was not closed. *)
Definition session_ref_open (s : App) : Prop :=
  forall h, sessionRef s = Some h -> sessions s !! h = Some SessionOpen.

(** [enqueue] for each payload in turn, as long as none fails to decode. *)
Fixpoint enqueueAll (envs : list MessageEnv) (s : App) : App :=
  match envs with
  | [] => s
  | env :: rest => enqueueAll rest (final (enqueue env s))
  end.

(** The start times of back-to-back playback from [t]: each buffer
    starts when the one before it ends. *)
Fixpoint backToBack (t : Q) (bs : list AudioBuffer) : list Q :=
  match bs with
  | [] => []
  | b :: rest => t :: backToBack (t + duration b)%Q rest
  end.

(** The sources [ids] end, one after the other. *)
Definition endAll (ids : list nat) (s : App) : App :=
  fold_left (fun s id => onended id s) ids s.

(** The source nodes [enqueueAll] creates, in order. *)
Fixpoint enqueuedSources (envs : list MessageEnv) (s : App) : list nat :=
  match envs with
  | [] => []
  | env :: rest => fresh (dom (nodes s)) :: enqueuedSources rest (final (enqueue env s))
  end.

(** Where the cursor stands after back-to-back playback from [t]. *)
Definition playedUntil (t : Q) (bs : list AudioBuffer) : Q :=
  fold_left (fun t b => t + duration b)%Q bs t.

(** The clock of each enqueue after the first is not ahead of the cursor
    the enqueues before it leave, starting from cursor [t]. *)
Fixpoint clockLags (t : Q) (envs : list MessageEnv) (bs : list AudioBuffer) : Prop :=
  match envs, bs with
  | env :: envs', b :: bs' =>
      decoded env = Resolves b /\ (currentTime env <= t)%Q /\
      clockLags (t + duration b)%Q envs' bs'
  | [], [] => True
  | _, _ => False
  end.

(** * Properties *)

(** ** Reasoning about handlers *)

Section HandlerRel.

Context (R : App -> App -> Prop) `{!Reflexive R} `{!Transitive R}.

Lemma rel_ret {A} (a : A) : handler_rel R (ret a).
Proof. intros s. simpl. reflexivity. Qed.

Lemma rel_mret {A} (a : A) : handler_rel R (mret a : Handler A).
Proof. apply rel_ret. Qed.

Lemma rel_throw {A} e : handler_rel R (throw e : Handler A).
Proof. intros s. simpl. reflexivity. Qed.

Lemma rel_read : handler_rel R read.
Proof. intros s. simpl. reflexivity. Qed.

Lemma rel_await {A} (p : Await A) : handler_rel R (await p).
Proof. destruct p; [apply rel_ret | apply rel_throw]. Qed.

Lemma rel_modify f : (forall s, R s (f s)) -> handler_rel R (modify f).
Proof. intros Hf s. apply Hf. Qed.

Lemma rel_bind {A B} (c : Handler A) (k : A -> Handler B) :
  handler_rel R c -> (forall a, handler_rel R (k a)) -> handler_rel R (c ≫= k).
Proof.
  intros Hc Hk s. specialize (Hc s).
  unfold mbind, Handler_bind, bind.
  destruct (c s) as [a s'|e s']; simpl in *; [|assumption].
  transitivity s'; [assumption | apply Hk].
Qed.

Lemma rel_tryCatch body handler :
  handler_rel R body -> (forall e, handler_rel R (handler e)) ->
  handler_rel R (tryCatch body handler).
Proof.
  intros Hb Hh s. specialize (Hb s). unfold tryCatch.
  destruct (body s) as [a s'|e s']; simpl in *; [assumption|].
  transitivity s'; [assumption | apply Hh].
Qed.

End HandlerRel.

(** Walks through a handler built from the combinators, leaving one goal
    for each [modify]. *)
Ltac handler_rel_auto :=
  repeat match goal with
  | |- Reflexive _ => exact _
  | |- Transitive _ => exact _
  | |- forall _, _ => intros ?
  | |- handler_rel _ (_ ≫= _) => apply rel_bind
  | |- handler_rel _ (tryCatch _ _) => apply rel_tryCatch
  | |- handler_rel _ (ret _) => apply rel_ret
  | |- handler_rel _ (mret _) => apply rel_mret
  | |- handler_rel _ (throw _) => apply rel_throw
  | |- handler_rel _ read => apply rel_read
  | |- handler_rel _ (await _) => apply rel_await
  | |- handler_rel _ (modify _) => apply rel_modify
  | |- handler_rel _ (match ?x with _ => _ end) => destruct x
  end.

#[global] Instance cursor_le_refl : Reflexive cursor_le.
Proof. intros s. apply Qle_refl. Qed.

#[global] Instance cursor_le_trans : Transitive cursor_le.
Proof. intros s1 s2 s3. apply Qle_trans. Qed.

#[global] Instance status_assigned_refl : Reflexive status_assigned.
Proof. intros s. left. reflexivity. Qed.

#[global] Instance status_assigned_trans : Transitive status_assigned.
Proof.
  intros s1 s2 s3 H12 H23. unfold status_assigned in *.
  destruct H23 as [E|H23]; [rewrite E; assumption | right; assumption].
Qed.

(** ** Stopping the scheduled sources *)

Lemma stop_stop n : stop (stop n) = stop n.
Proof. reflexivity. Qed.

Lemma foldr_alter_stop_lookup (l : list nat) (ns : gmap nat SourceNode) (id : nat) :
  foldr (fun i m => alter stop i m) ns l !! id =
  if decide (id ∈ l) then stop <$> ns !! id else ns !! id.
Proof.
  induction l as [|i l IH]; cbn [foldr].
  - destruct (decide (id ∈ [])) as [Hin|_]; [inversion Hin | reflexivity].
  - destruct (decide (i = id)) as [->|Hne].
    + rewrite lookup_alter_eq, IH.
      destruct (decide (id ∈ id :: l)) as [_|Hnin]; [|exfalso; apply Hnin; left].
      destruct (decide (id ∈ l)); [|reflexivity].
      destruct (ns !! id); reflexivity.
    + rewrite lookup_alter_ne by assumption. rewrite IH.
      destruct (decide (id ∈ l)) as [Hl|Hl], (decide (id ∈ i :: l)) as [Hc|Hc];
        try reflexivity; exfalso.
      * apply Hc. right. assumption.
      * apply elem_of_cons in Hc as [->|?]; [congruence | contradiction].
Qed.

Lemma stopSources_lookup s id :
  nodes (stopSources s) !! id =
  if decide (id ∈ audioSources s) then stop <$> nodes s !! id else nodes s !! id.
Proof.
  unfold stopSources. cbn [nodes set_nodes]. unfold set_fold. cbn [compose].
  rewrite foldr_alter_stop_lookup.
  destruct (decide (id ∈ elements (audioSources s))) as [Hl|Hl],
           (decide (id ∈ audioSources s)) as [Hc|Hc]; try reflexivity; exfalso.
  - apply Hc. apply elem_of_elements. assumption.
  - apply Hl. apply elem_of_elements. assumption.
Qed.

Lemma stopSources_none s : audioSources s = ∅ -> stopSources s = s.
Proof.
  intros He. unfold stopSources. rewrite He, set_fold_empty.
  destruct s; reflexivity.
Qed.

(** ** [stopSession] *)

Lemma stopSession_no_resources s :
  sessionRef s = None -> audioSources s = ∅ ->
  stopSession s = setIsModelTalking false (setStatus DISCONNECTED s).
Proof.
  intros Hh Hs. unfold stopSession. rewrite Hh.
  rewrite (stopSources_none s Hs).
  destruct s; simpl in *; subst; reflexivity.
Qed.

(** C7. [stopSession] is a total function on the component, so it returns
    from every state. Calling it twice is calling it once; it always leaves
    the status [DISCONNECTED], the session ref null, the set of sources empty
    and the talking flag off; a session handle held in the ref is closed and
    every source of the set is stopped; without a handle and without sources
    it changes nothing but the status and the talking flag, and nothing at
    all when those already are [DISCONNECTED] and off. *)
Theorem stopSession_idempotent_safe (s : App) :
  stopSession (stopSession s) = stopSession s /\
  status (stopSession s) = DISCONNECTED /\
  sessionRef (stopSession s) = None /\
  audioSources (stopSession s) = ∅ /\
  isModelTalking (stopSession s) = false /\
  (forall h, sessionRef s = Some h ->
     sessions (stopSession s) !! h = Some SessionClosed) /\
  (forall id, id ∈ audioSources s ->
     nodes (stopSession s) !! id = stop <$> nodes s !! id) /\
  (sessionRef s = None -> audioSources s = ∅ ->
     stopSession s = setIsModelTalking false (setStatus DISCONNECTED s)) /\
  (status s = DISCONNECTED -> isModelTalking s = false ->
   sessionRef s = None -> audioSources s = ∅ ->
     stopSession s = s).
Proof.
  assert (Hst : status (stopSession s) = DISCONNECTED) by reflexivity.
  assert (Href : sessionRef (stopSession s) = None)
    by (unfold stopSession; destruct (sessionRef s) eqn:E; cbn; [reflexivity | exact E]).
  assert (Hsrc : audioSources (stopSession s) = ∅) by reflexivity.
  assert (Htalk : isModelTalking (stopSession s) = false) by reflexivity.
  repeat split; try assumption.
  - rewrite (stopSession_no_resources _ Href Hsrc).
    destruct (stopSession s); simpl in *; subst; reflexivity.
  - intros h Hh. unfold stopSession. rewrite Hh. cbn. apply lookup_insert_eq.
  - intros id Hin.
    transitivity (nodes (stopSources
                    match sessionRef s with
                    | Some h => set_sessionRef None (close h s)
                    | None => s
                    end) !! id); [reflexivity|].
    rewrite stopSources_lookup.
    destruct (sessionRef s); cbn; (rewrite decide_True by assumption); reflexivity.
  - apply stopSession_no_resources.
  - intros Hd Ht Hh Hs. rewrite (stopSession_no_resources _ Hh Hs).
    destruct s; simpl in *; subst; reflexivity.
Qed.

(** ** The playback sequencer: [enqueue] and [interrupt] *)

Lemma onmessage_audio env d s :
  JsString.truthy d = true ->
  final (onmessage env (contentOnly (Some d) false false) s) = final (enqueue env s) /\
  threw (onmessage env (contentOnly (Some d) false false) s) = threw (enqueue env s).
Proof.
  intros Hd. unfold onmessage. cbn. rewrite Hd.
  unfold mbind, Handler_bind, bind.
  destruct (enqueue env s); split; reflexivity.
Qed.

Lemma onmessage_interrupted env s :
  onmessage env (contentOnly None true false) s = Normal tt (interrupt s).
Proof. reflexivity. Qed.

Lemma onmessage_turnComplete env s :
  onmessage env (contentOnly None false true) s = Normal tt (flushTurn env s).
Proof. reflexivity. Qed.

(** What one [enqueue] whose payload decodes does. *)
Lemma enqueue_resolved env b s :
  decoded env = Resolves b ->
  enqueue env s =
  Normal tt
    {| status := status s;
       isModelTalking := true;
       transcript := transcript s;
       error := error s;
       audioContexts := audioContexts s;
       nextStartTime := (Qmax (nextStartTime s) (currentTime env) + duration b)%Q;
       audioSources := {[fresh (dom (nodes s))]} ∪ audioSources s;
       sessionRef := sessionRef s;
       transcriptionBuffer := transcriptionBuffer s;
       _audioCleanup := _audioCleanup s;
       nodes := <[fresh (dom (nodes s)) :=
                   {| buffer := b;
                      startedAt := Qmax (nextStartTime s) (currentTime env);
                      stopped := false |}]> (nodes s);
       sessions := sessions s;
       captures := captures s |}.
Proof.
  intros Hdec. unfold enqueue, mbind, Handler_bind, bind, modify.
  rewrite Hdec. reflexivity.
Qed.

(** A payload that fails to decode: the handler throws after the talking
    flag and the cursor were written, and nothing is scheduled. *)
Lemma enqueue_rejected env e s :
  decoded env = Rejects e ->
  enqueue env s =
  Thrown e (set_nextStartTime (Qmax (nextStartTime s) (currentTime env))
              (setIsModelTalking true s)).
Proof.
  intros Hdec. unfold enqueue, mbind, Handler_bind, bind, modify.
  rewrite Hdec. reflexivity.
Qed.

Lemma fresh_node_unused (s : App) : nodes s !! fresh (dom (nodes s)) = None.
Proof. apply not_elem_of_dom. apply is_fresh. Qed.

Lemma duration_nonneg b : (0 <= duration b)%Q.
Proof.
  unfold duration, Qle. simpl. pose proof (N2Z.is_nonneg (bufferLength b)). lia.
Qed.

Lemma Qmax_zero_clock (c : Q) : (0 <= c)%Q -> (Qmax 0 c == c)%Q.
Proof. intros Hc. apply Q.max_r. assumption. Qed.

(** A message whose audio payload fails to decode: the handler throws
    there, and the interruption, the transcriptions and the turn completion
    the same message carries are not handled. *)
Remark onmessage_decode_failure env d e interrupted turnComplete s :
  JsString.truthy d = true ->
  decoded env = Rejects e ->
  onmessage env (contentOnly (Some d) interrupted turnComplete) s =
  Thrown e (set_nextStartTime (Qmax (nextStartTime s) (currentTime env))
              (setIsModelTalking true s)).
Proof.
  intros Hd Hdec. unfold onmessage. cbn. rewrite Hd.
  unfold mbind, Handler_bind, bind. rewrite (enqueue_rejected _ _ _ Hdec). reflexivity.
Qed.

(** C3. The block run on an interruption is a total function of the
    component. It stops every source of the active set, wherever its start
    time lies, and leaves the other nodes alone; it empties the set, puts the
    cursor at zero and turns the talking flag off; on an empty set it changes
    the cursor and the flag only. The buffer enqueued next, at a device clock
    that like every [currentTime] is not negative, is started at that clock
    reading, whatever the cursor was before the interruption. *)
Theorem interrupt_resets_sequencer (s : App) (env : MessageEnv) (b : AudioBuffer)
  (Hdec : decoded env = Resolves b) (Hclock : (0 <= currentTime env)%Q) :
  (forall id, id ∈ audioSources s ->
     nodes (interrupt s) !! id = stop <$> nodes s !! id) /\
  (forall id, id ∉ audioSources s ->
     nodes (interrupt s) !! id = nodes s !! id) /\
  audioSources (interrupt s) = ∅ /\
  nextStartTime (interrupt s) = 0%Q /\
  isModelTalking (interrupt s) = false /\
  (audioSources s = ∅ ->
     interrupt s = setIsModelTalking false (set_nextStartTime 0%Q s)) /\
  exists source n,
    nodes (interrupt s) !! source = None /\
    nodes (final (enqueue env (interrupt s))) !! source = Some n /\
    source ∈ audioSources (final (enqueue env (interrupt s))) /\
    buffer n = b /\
    (startedAt n == currentTime env)%Q.
Proof.
  split; [|split; [|split; [|split; [|split; [|split]]]]]; try reflexivity.
  - intros id Hin.
    change (nodes (interrupt s)) with (nodes (stopSources s)).
    rewrite stopSources_lookup, decide_True by assumption. reflexivity.
  - intros id Hin.
    change (nodes (interrupt s)) with (nodes (stopSources s)).
    rewrite stopSources_lookup, decide_False by assumption. reflexivity.
  - intros He. unfold interrupt. rewrite (stopSources_none s He).
    destruct s; simpl in *; subst; reflexivity.
  - exists (fresh (dom (nodes (interrupt s)))).
    eexists. rewrite (enqueue_resolved _ _ _ Hdec). cbn [final nodes audioSources].
    split; [apply fresh_node_unused|].
    split; [apply lookup_insert_eq|].
    split; [apply elem_of_union_l, elem_of_singleton; reflexivity|].
    split; [reflexivity|].
    cbn [startedAt]. apply Qmax_zero_clock. assumption.
Qed.

Lemma interrupt_resets_sequencer_witness :
  let s := run initialApp
             [OnMessage (sampleEnv 1 24000 0) (contentOnly (Some (js "AAAA")) false false);
              OnMessage (sampleEnv 1 12000 0) (contentOnly (Some (js "AAAA")) false false)] in
  (nextStartTime s == 5 # 2)%Q /\
  audioSources (interrupt s) = ∅ /\
  nextStartTime (interrupt s) = 0%Q /\
  exists source n,
    nodes (final (enqueue (sampleEnv 7 2400 0) (interrupt s))) !! source = Some n /\
    (startedAt n == 7)%Q.
Proof.
  intros s.
  assert (Hclock : (0 <= currentTime (sampleEnv 7 2400 0))%Q) by (vm_compute; discriminate).
  destruct (interrupt_resets_sequencer s (sampleEnv 7 2400 0) (sampleBuffer 2400)
              eq_refl Hclock)
    as (_ & _ & Hset & Hcur & _ & _ & source & n & _ & Hn & _ & _ & Hstart).
  split; [vm_compute; reflexivity|].
  split; [exact Hset|].
  split; [exact Hcur|].
  exists source, n. split; [exact Hn | exact Hstart].
Defined.

Lemma enqueue_step env b s :
  decoded env = Resolves b ->
  nodes s !! fresh (dom (nodes s)) = None /\
  nodes (final (enqueue env s)) =
    <[fresh (dom (nodes s)) :=
        {| buffer := b;
           startedAt := Qmax (nextStartTime s) (currentTime env);
           stopped := false |}]> (nodes s) /\
  audioSources (final (enqueue env s)) = {[fresh (dom (nodes s))]} ∪ audioSources s /\
  nextStartTime (final (enqueue env s)) =
    (Qmax (nextStartTime s) (currentTime env) + duration b)%Q.
Proof.
  intros Hdec. rewrite (enqueue_resolved _ _ _ Hdec).
  split; [apply fresh_node_unused|]. repeat split.
Qed.

(** C2. Every [enqueue] whose payload decodes starts a new source node at
    the maximum of the cursor and the device clock, adds it to the active
    set, and moves the cursor to that start time plus the buffer's duration.
    So three buffers enqueued one after the other, the first at a clock [t0]
    the cursor has not passed and the next two at clocks the cursor is ahead
    of, start at [t0], [t0 + d1] and [t0 + d1 + d2], all three are in the
    active set, and the cursor ends at [t0 + d1 + d2 + d3]. *)
Theorem enqueue_schedules_back_to_back :
  (forall env b s,
     decoded env = Resolves b ->
     let s' := final (enqueue env s) in
     let source := fresh (dom (nodes s)) in
     nodes s !! source = None /\
     nodes s' !! source =
       Some {| buffer := b;
               startedAt := Qmax (nextStartTime s) (currentTime env);
               stopped := false |} /\
     (forall id, id <> source -> nodes s' !! id = nodes s !! id) /\
     audioSources s' = {[source]} ∪ audioSources s /\
     nextStartTime s' = (Qmax (nextStartTime s) (currentTime env) + duration b)%Q) /\
  (forall s e1 e2 e3 b1 b2 b3,
     decoded e1 = Resolves b1 ->
     decoded e2 = Resolves b2 ->
     decoded e3 = Resolves b3 ->
     (nextStartTime s <= currentTime e1)%Q ->
     (currentTime e2 <= currentTime e1 + duration b1)%Q ->
     (currentTime e3 <= currentTime e1 + duration b1 + duration b2)%Q ->
     let s1 := final (enqueue e1 s) in
     let s2 := final (enqueue e2 s1) in
     let s3 := final (enqueue e3 s2) in
     exists n1 n2 n3,
       nodes s3 !! fresh (dom (nodes s)) = Some n1 /\
       nodes s3 !! fresh (dom (nodes s1)) = Some n2 /\
       nodes s3 !! fresh (dom (nodes s2)) = Some n3 /\
       (buffer n1 = b1 /\ buffer n2 = b2 /\ buffer n3 = b3) /\
       (startedAt n1 == currentTime e1)%Q /\
       (startedAt n2 == currentTime e1 + duration b1)%Q /\
       (startedAt n3 == currentTime e1 + duration b1 + duration b2)%Q /\
       (nextStartTime s3 == currentTime e1 + duration b1 + duration b2 + duration b3)%Q /\
       {[fresh (dom (nodes s)); fresh (dom (nodes s1)); fresh (dom (nodes s2))]}
         ⊆ audioSources s3).
Proof.
  split.
  - intros env b s Hdec s' source.
    destruct (enqueue_step env b s Hdec) as (Hnew & Hnodes & Hset & Hcur).
    subst s' source. rewrite Hnodes.
    split; [exact Hnew|].
    split; [apply lookup_insert_eq|].
    split; [intros id Hne; apply lookup_insert_ne; congruence|].
    split; assumption.
  - intros s e1 e2 e3 b1 b2 b3 H1 H2 H3 Hlag1 Hlag2 Hlag3 s1 s2 s3.
    destruct (enqueue_step e1 b1 s H1) as (New1 & N1 & A1 & C1).
    destruct (enqueue_step e2 b2 s1 H2) as (New2 & N2 & A2 & C2).
    destruct (enqueue_step e3 b3 s2 H3) as (New3 & N3 & A3 & C3).
    fold s1 in N1, A1, C1. fold s2 in N2, A2, C2, New3. fold s3 in N3, A3, C3.
    set (i1 := fresh (dom (nodes s))) in *.
    set (i2 := fresh (dom (nodes s1))) in *.
    set (i3 := fresh (dom (nodes s2))) in *.
    assert (L1 : nodes s1 !! i1 = Some {| buffer := b1;
                   startedAt := Qmax (nextStartTime s) (currentTime e1);
                   stopped := false |})
      by (rewrite N1; apply lookup_insert_eq).
    assert (Hne12 : i2 <> i1) by (intros E; rewrite E in New2; congruence).
    assert (L2 : nodes s2 !! i2 = Some {| buffer := b2;
                   startedAt := Qmax (nextStartTime s1) (currentTime e2);
                   stopped := false |})
      by (rewrite N2; apply lookup_insert_eq).
    assert (L21 : nodes s2 !! i1 = nodes s1 !! i1)
      by (rewrite N2; apply lookup_insert_ne; assumption).
    assert (Hne31 : i3 <> i1) by (intros E; rewrite E, L21, L1 in New3; congruence).
    assert (Hne32 : i3 <> i2) by (intros E; rewrite E, L2 in New3; congruence).
    assert (M1 : (Qmax (nextStartTime s) (currentTime e1) == currentTime e1)%Q)
      by (apply Q.max_r; assumption).
    assert (M2 : (Qmax (nextStartTime s1) (currentTime e2) == nextStartTime s1)%Q)
      by (apply Q.max_l; rewrite C1, M1; assumption).
    assert (M3 : (Qmax (nextStartTime s2) (currentTime e3) == nextStartTime s2)%Q)
      by (apply Q.max_l; rewrite C2, M2, C1, M1; assumption).
    eexists _, _, _.
    split; [rewrite N3, lookup_insert_ne, L21 by assumption; exact L1|].
    split; [rewrite N3, lookup_insert_ne by assumption; exact L2|].
    split; [rewrite N3; apply lookup_insert_eq|].
    split; [repeat split|].
    cbn [startedAt].
    split; [exact M1|].
    split; [rewrite M2, C1, M1; reflexivity|].
    split; [rewrite M3, C2, M2, C1, M1; reflexivity|].
    split; [rewrite C3, M3, C2, M2, C1, M1; reflexivity|].
    rewrite A3, A2, A1. intros x Hx.
    rewrite !elem_of_union, !elem_of_singleton in Hx.
    rewrite !elem_of_union, !elem_of_singleton. tauto.
Qed.

Lemma enqueue_schedules_back_to_back_witness :
  let e1 := sampleEnv (1 # 2) 24000 0 in
  let e2 := sampleEnv (3 # 4) 12000 0 in
  let e3 := sampleEnv 1 6000 0 in
  let s3 := final (enqueue e3 (final (enqueue e2 (final (enqueue e1 initialApp))))) in
  exists n1 n2 n3,
    nodes s3 !! 0%nat = Some n1 /\ nodes s3 !! 1%nat = Some n2 /\ nodes s3 !! 2%nat = Some n3 /\
    (startedAt n1 == 1 # 2)%Q /\ (startedAt n2 == 3 # 2)%Q /\ (startedAt n3 == 2)%Q /\
    (nextStartTime s3 == 9 # 4)%Q.
Proof.
  intros e1 e2 e3 s3.
  assert (H1 : (nextStartTime initialApp <= currentTime e1)%Q) by (vm_compute; discriminate).
  assert (H2 : (currentTime e2 <= currentTime e1 + duration (sampleBuffer 24000))%Q)
    by (vm_compute; discriminate).
  assert (H3 : (currentTime e3 <= currentTime e1 + duration (sampleBuffer 24000)
                                  + duration (sampleBuffer 12000))%Q)
    by (vm_compute; discriminate).
  destruct (proj2 enqueue_schedules_back_to_back initialApp e1 e2 e3
              (sampleBuffer 24000) (sampleBuffer 12000) (sampleBuffer 6000)
              eq_refl eq_refl eq_refl H1 H2 H3)
    as (n1 & n2 & n3 & L1 & L2 & L3 & _ & S1 & S2 & S3 & C & _).
  exists n1, n2, n3.
  split; [exact L1|]. split; [exact L2|]. split; [exact L3|].
  split; [rewrite S1; reflexivity|].
  split; [rewrite S2; reflexivity|].
  split; [rewrite S3; reflexivity|].
  fold s3 in C. rewrite C. reflexivity.
Defined.


(** ** The cursor across the callbacks *)

Lemma startSession_cursor env : handler_rel cursor_le (startSession env).
Proof.
  unfold startSession, startBody, startCatch, initAudio, acquireStream, openSession.
  handler_rel_auto; try apply Qle_refl.
  unfold cursor_le, onopen. cbn.
  match goal with |- context [audioContexts ?x] => destruct (audioContexts x) end;
    apply Qle_refl.
Qed.

Lemma stopSession_cursor s : nextStartTime (stopSession s) = nextStartTime s.
Proof. unfold stopSession. destruct (sessionRef s); reflexivity. Qed.

Lemma enqueue_cursor env : handler_rel cursor_le (enqueue env).
Proof.
  unfold enqueue. handler_rel_auto; unfold cursor_le; cbn.
  - apply Qle_refl.
  - apply Q.le_max_l.
  - match goal with b : AudioBuffer |- _ => pose proof (duration_nonneg b) end. lra.
Qed.

Lemma flushTurn_cursor env s : nextStartTime (flushTurn env s) = nextStartTime s.
Proof. unfold flushTurn. destruct (_ || _); reflexivity. Qed.

Lemma onmessage_cursor env m :
  interrupts (OnMessage env m) = false -> handler_rel cursor_le (onmessage env m).
Proof.
  intros Hint. unfold onmessage. destruct m as [[sc|]]; cbn in *.
  - rewrite Hint. handler_rel_auto; try apply enqueue_cursor; unfold cursor_le;
      rewrite ?flushTurn_cursor; apply Qle_refl.
  - handler_rel_auto; try apply enqueue_cursor; apply Qle_refl.
Qed.

Lemma step_cursor s e :
  interrupts e = false -> (nextStartTime s <= nextStartTime (step s e))%Q.
Proof.
  intros Hint. destruct e as [env|env| |stream|env m| | |source| ]; cbn [step].
  - unfold onClick. destruct (status s).
    + apply startSession_cursor.
    + apply Qle_refl.
    + rewrite stopSession_cursor. apply Qle_refl.
    + apply startSession_cursor.
  - apply startSession_cursor.
  - rewrite stopSession_cursor. apply Qle_refl.
  - unfold onopen. cbn. destruct (audioContexts s); apply Qle_refl.
  - apply onmessage_cursor. assumption.
  - unfold onerror. rewrite stopSession_cursor. apply Qle_refl.
  - apply Qle_refl.
  - unfold onended. cbn. destruct (decide _); apply Qle_refl.
  - unfold unmount.
    destruct (_audioCleanup (stopSession s));
      unfold audioCleanup; cbn [nextStartTime set_captures];
      rewrite stopSession_cursor; apply Qle_refl.
Qed.

(** C4, the claim fails: a session that has scheduled one second of audio
    at clock 1 has its cursor at 2; the interruption that arrives at clock
    3/2 puts the cursor at 0, not at 3/2. *)
Lemma cursor_after_interrupt_not_clock :
  let s := final (enqueue (sampleEnv 1 24000 0) initialApp) in
  let env := sampleEnv (3 # 2) 0 0 in
  let s' := final (onmessage env (contentOnly None true false) s) in
  (nextStartTime s == 2)%Q /\
  nextStartTime s' = 0%Q /\
  ~ (nextStartTime s' == currentTime env)%Q.
Proof.
  cbv zeta. split; [vm_compute; reflexivity|]. split; [reflexivity|].
  vm_compute. discriminate.
Qed.

(** C4, amended. No callback other than the handling of a message flagged
    as interrupted moves the cursor back. An interruption puts the cursor at
    zero, not at the device clock; it is the next [enqueue] that, reading a
    clock that is not negative, starts its buffer at that clock reading and
    leaves the cursor one buffer duration after it. *)
Theorem cursor_monotone_reset_to_zero :
  (forall s e, interrupts e = false ->
     (nextStartTime s <= nextStartTime (step s e))%Q) /\
  (forall s env,
     nextStartTime (final (onmessage env (contentOnly None true false) s)) = 0%Q) /\
  (forall s env b,
     decoded env = Resolves b -> (0 <= currentTime env)%Q ->
     (Qmax (nextStartTime (interrupt s)) (currentTime env) == currentTime env)%Q /\
     (nextStartTime (final (enqueue env (interrupt s)))
      == currentTime env + duration b)%Q).
Proof.
  split; [exact step_cursor|].
  split; [reflexivity|].
  intros s env b Hdec Hclock.
  rewrite (enqueue_resolved _ _ _ Hdec). cbn [final nextStartTime].
  change (nextStartTime (interrupt s)) with 0%Q.
  rewrite (Qmax_zero_clock _ Hclock). split; reflexivity.
Qed.

Lemma cursor_monotone_reset_to_zero_witness :
  let s := final (enqueue (sampleEnv 1 24000 0) initialApp) in
  (nextStartTime s <= nextStartTime (step s (OnEnded 0)))%Q /\
  (nextStartTime (final (enqueue (sampleEnv (3 # 2) 12000 0) (interrupt s))) == 2)%Q.
Proof.
  intros s.
  destruct cursor_monotone_reset_to_zero as (Hmono & _ & Hnext).
  split.
  - apply Hmono. reflexivity.
  - destruct (Hnext s (sampleEnv (3 # 2) 12000 0) (sampleBuffer 12000) eq_refl) as [_ Hcur].
    + vm_compute. discriminate.
    + rewrite Hcur. vm_compute. reflexivity.
Defined.

(** ** The status across the callbacks *)

Lemma startSession_status env : handler_rel status_assigned (startSession env).
Proof.
  unfold startSession, startBody, startCatch, initAudio, acquireStream, openSession.
  handler_rel_auto; unfold status_assigned, onopen; cbn; auto.
  match goal with |- context [audioContexts ?x] => destruct (audioContexts x) end;
    cbn; auto.
Qed.

Lemma stopSession_status s : status (stopSession s) = DISCONNECTED.
Proof. reflexivity. Qed.

Lemma flushTurn_status env s : status (flushTurn env s) = status s.
Proof. unfold flushTurn. destruct (_ || _); reflexivity. Qed.

Lemma onmessage_status env m : handler_rel status_assigned (onmessage env m).
Proof.
  unfold onmessage, enqueue.
  handler_rel_auto; unfold status_assigned; rewrite ?flushTurn_status; cbn; auto.
Qed.

Lemma step_status s e : status_assigned s (step s e).
Proof.
  destruct e as [env|env| |stream|env m| | |source| ]; cbn [step].
  - unfold onClick. destruct (status s) eqn:E; rewrite <- ?E;
      try apply startSession_status; unfold status_assigned; auto.
  - apply startSession_status.
  - right. left. reflexivity.
  - unfold status_assigned, onopen. cbn. destruct (audioContexts s); cbn; auto.
  - apply onmessage_status.
  - right. left. reflexivity.
  - right. left. reflexivity.
  - left. unfold onended. cbn. destruct (decide _); reflexivity.
  - right. left. unfold unmount. destruct (_audioCleanup (stopSession s)); reflexivity.
Qed.

Lemma run_status_not_error es : forall s, status s <> ERROR -> status (run s es) <> ERROR.
Proof.
  induction es as [|e es IH]; intros s Hs; cbn [run fold_left].
  - assumption.
  - apply IH. destruct (step_status s e) as [E|[E|[E|E]]]; rewrite E;
      solve [assumption | discriminate].
Qed.

(** ** Errors of [startSession] *)

Lemma startSession_caught env s e :
  threw (startBody env s) = Some e ->
  threw (startSession env s) = None /\
  error (final (startSession env s)) = Some (messageOr e startFailedMessage) /\
  status (final (startSession env s)) = DISCONNECTED.
Proof.
  unfold startSession, tryCatch. destruct (startBody env s) as [a s'|e' s']; cbn.
  - discriminate.
  - intros [= ->]. repeat split.
Qed.

(** The errors of the [try] block are the rejections of the steps it
    awaits, the first in program order. *)
Lemma startBody_throws_first_rejection env s :
  threw (startBody env s) = firstRejection env s.
Proof.
  unfold startBody, firstRejection, initAudio, acquireStream, openSession.
  unfold mbind, Handler_bind, bind, modify, read, await, ret, throw.
  destruct s as [st talking tr err [[i o]|] cursor sources ref buf cleanup ns ss cs];
    cbn [audioContexts setStatus setError].
  - destruct i, o; cbn [input output resumed_input audioContexts set_audioContexts];
      repeat match goal with
      | |- context [match ?f env with _ => _ end] =>
          destruct (f env); cbn [output resumed_output audioContexts set_audioContexts]
      end; reflexivity.
  - destruct (newAudioContexts env) as [[i o]|e]; [|reflexivity].
    cbn [audioContexts set_audioContexts].
    destruct i, o; cbn [input output resumed_input audioContexts set_audioContexts];
      repeat match goal with
      | |- context [match ?f env with _ => _ end] =>
          destruct (f env); cbn [output resumed_output audioContexts set_audioContexts]
      end; reflexivity.
Qed.

Lemma startSession_never_throws env s : threw (startSession env s) = None.
Proof.
  unfold startSession, tryCatch. destruct (startBody env s) as [a s'|e' s']; reflexivity.
Qed.

Lemma startSession_ignores_status env st s :
  startSession env (setStatus st s) = startSession env s.
Proof. reflexivity. Qed.

(** C6. Whatever the component and whichever step of the [try] block
    throws, the error is the first rejection among the steps awaited
    (building and resuming the audio contexts, the SDK client, the
    microphone, the connection), and [startSession] itself does not throw:
    the error is caught, its message (or the standard text when it has none)
    becomes the error message, and the status is [DISCONNECTED]. *)
Theorem startSession_errors_caught (env : StartEnv) (s : App) (e : JsError)
  (Hthrown : threw (startBody env s) = Some e) :
  firstRejection env s = Some e /\
  threw (startSession env s) = None /\
  error (final (startSession env s)) = Some (messageOr e startFailedMessage) /\
  status (final (startSession env s)) = DISCONNECTED.
Proof.
  split; [rewrite <- startBody_throws_first_rejection; exact Hthrown|].
  unfold startSession, tryCatch in *.
  destruct (startBody env s) as [a s'|e' s']; cbn in Hthrown.
  - discriminate Hthrown.
  - injection Hthrown as ->. cbn. repeat split.
Qed.

Lemma startSession_errors_caught_witness :
  (threw (startBody permissionDenied initialApp)
   = Some {| message := Some (js "Permission denied") |}) /\
  threw (startSession permissionDenied initialApp) = None /\
  error (final (startSession permissionDenied initialApp)) = Some (js "Permission denied") /\
  status (final (startSession permissionDenied initialApp)) = DISCONNECTED.
Proof.
  split; [reflexivity|].
  exact (proj2 (startSession_errors_caught permissionDenied initialApp
                  {| message := Some (js "Permission denied") |} eq_refl)).
Defined.

(** A refused connection whose error has no message: the standard text is
    shown, and the microphone stream acquired before stays live. *)
Example connection_refused :
  let s := final (startSession connectionRefused initialApp) in
  status s = DISCONNECTED /\
  error s = Some startFailedMessage /\
  sessionRef s = None /\
  captures s !! 0%nat = Some {| tracksLive := true; graphConnected := false |}.
Proof. vm_compute. repeat split. Qed.

(** C10. From the initial component no sequence of callbacks makes the
    status [ERROR]: each callback leaves the status as it was or sets it to
    [DISCONNECTED], [CONNECTING] or [CONNECTED]. The two error paths end
    [DISCONNECTED], with the error kept in the error message: the [onerror]
    callback, and a [startSession] whose [try] block throws. *)
Theorem status_never_error :
  (forall es, status (run initialApp es) <> ERROR) /\
  (forall s e,
     status (step s e) = status s \/
     status (step s e) = DISCONNECTED \/
     status (step s e) = CONNECTING \/
     status (step s e) = CONNECTED) /\
  (forall s,
     status (onerror s) = DISCONNECTED /\
     error (onerror s) = Some connectionErrorMessage) /\
  (forall env s e,
     threw (startBody env s) = Some e ->
     status (final (startSession env s)) = DISCONNECTED /\
     error (final (startSession env s)) = Some (messageOr e startFailedMessage)).
Proof.
  split; [intros es; apply run_status_not_error; discriminate|].
  split; [exact step_status|].
  split.
  - intros s. split; [reflexivity|].
    unfold onerror, stopSession. cbn. destruct (sessionRef s); reflexivity.
  - intros env s e He. destruct (startSession_caught env s e He) as (_ & Herr & Hst).
    split; assumption.
Qed.

(** C5, the claim fails: on a connected component [startSession] does not
    throw and the status does not stay [CONNECTED]; with a connection whose
    [onopen] has not been called yet it is [CONNECTING], and a second
    session handle has replaced the first. *)
Lemma startSession_while_connected :
  let s := run initialApp [Click (startsFine true)] in
  let c := startSession (startsFine false) s in
  status s = CONNECTED /\
  sessionRef s = Some 0%nat /\
  threw c = None /\
  status (final c) = CONNECTING /\
  sessionRef (final c) = Some 1%nat.
Proof. vm_compute. repeat split. Qed.

(** C5, amended. [startSession] has no guard on the status and never
    throws: from any status it runs as it does from [DISCONNECTED], setting
    [CONNECTING] and clearing the error message first. What keeps it from
    running on an active session is the button: while [CONNECTING] a click
    does nothing, while [CONNECTED] it runs [stopSession], and only in the
    remaining states does it run [startSession]. *)
Theorem startSession_unguarded :
  (forall env s, threw (startSession env s) = None) /\
  (forall env s, startSession env s = startSession env (setStatus DISCONNECTED s)) /\
  (forall env s, status s = CONNECTING -> onClick env s = s) /\
  (forall env s, status s = CONNECTED -> onClick env s = stopSession s) /\
  (forall env s, status s <> CONNECTING -> status s <> CONNECTED ->
     onClick env s = final (startSession env s)).
Proof.
  split; [exact startSession_never_throws|].
  split; [intros env s; symmetry; apply startSession_ignores_status|].
  split; [intros env s E; unfold onClick; rewrite E; reflexivity|].
  split; [intros env s E; unfold onClick; rewrite E; reflexivity|].
  intros env s H1 H2. unfold onClick. destruct (status s); congruence.
Qed.

Lemma startSession_unguarded_witness :
  let s := run initialApp [Click (startsFine true)] in
  status s = CONNECTED /\
  onClick (startsFine false) s = stopSession s /\
  startSession (startsFine false) s
  = startSession (startsFine false) (setStatus DISCONNECTED s).
Proof.
  intros s.
  destruct startSession_unguarded as (_ & Hsame & _ & Hstop & _).
  split; [reflexivity|].
  split; [apply Hstop; reflexivity | apply Hsame].
Defined.

(** ** The microphone capture *)

Lemma stopSession_captures s :
  captures (stopSession s) = captures s /\ _audioCleanup (stopSession s) = _audioCleanup s.
Proof. unfold stopSession. destruct (sessionRef s); split; reflexivity. Qed.

(** C8, on the code: [stopSession] never touches a capture. On the
    component a successful start leaves, the microphone stream still has
    live tracks and a connected capture graph after [stopSession]; the
    unmount cleanup, which calls [window._audioCleanup] after
    [stopSession], is the path that releases them. *)
Theorem stopSession_keeps_microphone :
  (forall s, captures (stopSession s) = captures s) /\
  let s := run initialApp [Click (startsFine true)] in
  status s = CONNECTED /\
  _audioCleanup s = Some 0%nat /\
  captures s !! 0%nat = Some {| tracksLive := true; graphConnected := true |} /\
  captures (step s StopSession) !! 0%nat
  = Some {| tracksLive := true; graphConnected := true |} /\
  captures (step s Unmount) !! 0%nat
  = Some {| tracksLive := false; graphConnected := false |}.
Proof.
  split; [intros s; apply stopSession_captures|].
  vm_compute. repeat split.
Qed.

(** ** The transcript *)

Lemma trimStart_white s :
  forallb JsString.isWhiteSpace s = true -> JsString.trimStart s = [].
Proof.
  induction s as [|c s IH]; cbn; [reflexivity|].
  intros H. apply andb_prop in H as [Hc Hs]. rewrite Hc. apply IH. assumption.
Qed.

(** A buffer of white space only is empty after trimming. *)
Lemma trim_white s : forallb JsString.isWhiteSpace s = true -> JsString.trim s = [].
Proof. intros H. unfold JsString.trim. rewrite (trimStart_white s H). reflexivity. Qed.

Example trim_example : JsString.trim (js "  Hello there
 ") = js "Hello there".
Proof. reflexivity. Qed.

(** C1, the claim fails: with "Hi" and "Hello!" in the buffer and a clock
    that reads 1000 at the first [Date.now()] and 1001 at the second, the
    user entry is stamped 1000 and the model entry 1002, two units later. *)
Lemma flushTurn_timestamps_two_apart :
  let s := appendModel {| Msg.text := Some (js "Hello!") |}
             (appendUser {| Msg.text := Some (js "Hi") |} initialApp) in
  let env := sampleEnv 0 0 1000 in
  dateNow env 0%nat = 1000 /\
  dateNow env 1%nat = 1001 /\
  transcript (flushTurn env s)
  = [ {| type := TyUser; text := js "Hi"; timestamp := 1000 |};
      {| type := TyModel; text := js "Hello!"; timestamp := 1002 |} ] /\
  1002 <> 1000 + 1.
Proof. cbv zeta. repeat split. discriminate. Qed.

(** C1, amended. The flush trims both buffer fields and appends, after the
    entries already in the transcript, one entry for each field that is not
    empty after trimming: none, the user's, the model's, or the user's
    followed by the model's. The user entry is stamped with a reading of the
    clock, the model entry with one more than a reading of its own, taken
    after the user's when both are built; its timestamp is therefore one
    unit later than the user's exactly when the two readings agree. The
    buffer is empty afterwards in every case. *)
Theorem flushTurn_entries (env : MessageEnv) (s : App) :
  let userText := JsString.trim (user (transcriptionBuffer s)) in
  let modelText := JsString.trim (model (transcriptionBuffer s)) in
  transcript (flushTurn env s) =
    transcript s ++
    match userText, modelText with
    | [], [] => []
    | _ :: _, [] =>
        [ {| type := TyUser; text := userText; timestamp := dateNow env 0%nat |} ]
    | [], _ :: _ =>
        [ {| type := TyModel; text := modelText; timestamp := dateNow env 0%nat + 1 |} ]
    | _ :: _, _ :: _ =>
        [ {| type := TyUser; text := userText; timestamp := dateNow env 0%nat |};
          {| type := TyModel; text := modelText; timestamp := dateNow env 1%nat + 1 |} ]
    end /\
  transcriptionBuffer (flushTurn env s) = {| user := []; model := [] |}.
Proof.
  intros userText modelText. unfold flushTurn. fold userText modelText.
  destruct userText as [|u us], modelText as [|m ms]; cbn.
  - split; [symmetry; apply app_nil_r | reflexivity].
  - split; reflexivity.
  - split; reflexivity.
  - split; reflexivity.
Qed.

(** The examples of the specification: fragments "Hel" and "lo" of the user
    and nothing of the model give the one entry "Hello"; an empty buffer
    gives none. *)
Example flush_hello :
  let s := appendUser {| Msg.text := Some (js "lo") |}
             (appendUser {| Msg.text := Some (js "Hel") |} initialApp) in
  transcript (flushTurn (sampleEnv 0 0 1000) s)
  = [ {| type := TyUser; text := js "Hello"; timestamp := 1000 |} ] /\
  transcript (flushTurn (sampleEnv 0 0 1000) initialApp) = [].
Proof. split; reflexivity. Qed.

(** ** The PCM codec *)

Section PcmCodecFacts.

Import PcmCodec.
Local Open Scope Q_scope.

Lemma toInteger_near r (q : Q) :
  q - 1 < inject_Z (toInteger r q) /\ inject_Z (toInteger r q) < q + 1.
Proof.
  pose proof (Qfloor_le q) as Hf1. pose proof (Qlt_floor q) as Hf2.
  pose proof (Qle_ceiling q) as Hc1. pose proof (Qceiling_lt q) as Hc2.
  rewrite inject_Z_plus in Hf2. unfold Zminus in Hc2. rewrite inject_Z_plus in Hc2.
  change (inject_Z 1) with 1 in Hf2. change (inject_Z (Z.opp 1)) with (-1 # 1) in Hc2.
  destruct r; cbn [toInteger].
  - unfold Qtruncate. destruct (Qle_bool 0 q); split; lra.
  - split; lra.
  - split; lra.
  - pose proof (Qfloor_le (q + (1 # 2))) as Hn1.
    pose proof (Qlt_floor (q + (1 # 2))) as Hn2.
    rewrite inject_Z_plus in Hn2. change (inject_Z 1) with 1 in Hn2.
    split; lra.
Qed.

Lemma clamp16_id z : (-32768 <= z <= 32767)%Z -> clamp16 z = z.
Proof. unfold clamp16. lia. Qed.

Lemma clamp16_range z : (-32768 <= clamp16 z <= 32767)%Z.
Proof. unfold clamp16. lia. Qed.

Lemma int16_littleEndian v :
  (-32768 <= v <= 32767)%Z ->
  match littleEndian v with
  | [lo; hi] => int16 lo hi = v
  | _ => False
  end.
Proof.
  intros Hv. unfold littleEndian, int16. cbv zeta.
  pose proof (Z.div_mod (v mod 65536) 256 ltac:(lia)) as Hdm.
  replace ((v mod 65536) mod 256 + 256 * (v mod 65536 / 256))%Z with (v mod 65536)%Z by lia.
  destruct (Z.ltb_spec (v mod 65536) 32768) as [Hlt|Hge].
  - destruct (Z_lt_le_dec v 0) as [Hneg|Hpos].
    + exfalso. replace v with (v + 65536 - 1 * 65536)%Z in Hlt by lia.
      rewrite Zminus_mod, Z_mod_mult, Z.sub_0_r, Z.mod_mod, Z.mod_small in Hlt by lia. lia.
    + apply Z.mod_small. lia.
  - destruct (Z_lt_le_dec v 0) as [Hneg|Hpos].
    + replace (v mod 65536)%Z with ((v + 1 * 65536) mod 65536)%Z by apply Z_mod_plus_full.
      rewrite Z.mod_small by lia. lia.
    + exfalso. rewrite Z.mod_small in Hge by lia. lia.
Qed.

Lemma decode_encode r samples :
  decode (encode r samples) = List.map (fun x => quantize r x # 32768) samples.
Proof.
  induction samples as [|x xs IH]; [reflexivity|].
  cbn [encode flat_map List.map].
  pose proof (int16_littleEndian (quantize r x) (clamp16_range _)) as Hrt.
  unfold littleEndian in *. cbv zeta in *. cbn [app decode].
  rewrite Hrt. f_equal. exact IH.
Qed.

Lemma quantize_in_range r x :
  inRange x -> quantize r x = toInteger r (x * 32767).
Proof.
  intros [Hlo Hhi]. unfold quantize. apply clamp16_id.
  destruct (toInteger_near r (x * 32767)) as [H1 H2].
  assert (Hl : inject_Z (-32768) < inject_Z (toInteger r (x * 32767)))
    by (change (inject_Z (-32768)) with (-32768 # 1); lra).
  assert (Hu : inject_Z (toInteger r (x * 32767)) < inject_Z 32768)
    by (change (inject_Z 32768) with (32768 # 1); lra).
  rewrite <- Zlt_Qlt in Hl, Hu. lia.
Qed.

Lemma roundtrip_sample r x :
  inRange x -> Qabs ((quantize r x # 32768) - x) <= 1 # 16384.
Proof.
  intros Hx. rewrite (quantize_in_range r x Hx).
  destruct (toInteger_near r (x * 32767)) as [H1 H2]. destruct Hx as [Hlo Hhi].
  set (v := toInteger r (x * 32767)) in *.
  assert (Hv : v # 32768 == inject_Z v * (1 # 32768))
    by (unfold Qeq, inject_Z; cbn; lia).
  rewrite Hv. apply Qabs_Qle_condition. split; lra.
Qed.

End PcmCodecFacts.

(** C9, the claim fails: the sample 131069/131072, a 32-bit float, scales
    to 32766.25 and becomes 32766 however it is rounded down or to the
    nearest integer; decoded, that is 32766/32768, which is 5/131072 away
    from the sample, more than 1/32767. Rounding up does the same to the
    negated sample. *)
Lemma roundtrip_beyond_one_step :
  let x := 131069 # 131072 in
  PcmCodec.inRange x /\
  PcmCodec.inRange (- x) /\
  ~ PcmCodec.within (1 # 32767) [x] (PcmCodec.decode (PcmCodec.encode PcmCodec.Truncate [x])) /\
  ~ PcmCodec.within (1 # 32767) [x] (PcmCodec.decode (PcmCodec.encode PcmCodec.Floor [x])) /\
  ~ PcmCodec.within (1 # 32767) [x] (PcmCodec.decode (PcmCodec.encode PcmCodec.Nearest [x])) /\
  ~ PcmCodec.within (1 # 32767) [(- x)%Q]
      (PcmCodec.decode (PcmCodec.encode PcmCodec.Ceiling [(- x)%Q])).
Proof.
  cbv zeta.
  split; [split; vm_compute; discriminate|].
  split; [split; vm_compute; discriminate|].
  repeat split; intros H; vm_compute in H; inversion H as [|? ? ? ? Hd _]; subst;
    apply Hd; reflexivity.
Qed.

(** C9, amended. For every way of rounding the scaled sample to a
    neighbouring integer and every sequence of samples in [-1, 1], decoding
    the encoded sequence gives a sequence of the same length, each element
    within 1/16384, two steps of 1/32768, of the sample at its place. *)
Theorem roundtrip_within_two_steps (r : PcmCodec.Rounding) (samples : list Q)
  (Hrange : Forall PcmCodec.inRange samples) :
  PcmCodec.within (1 # 16384) samples (PcmCodec.decode (PcmCodec.encode r samples)).
Proof.
  rewrite decode_encode. unfold PcmCodec.within.
  induction Hrange as [|x xs Hx _ IH]; cbn [List.map]; constructor.
  - apply roundtrip_sample. assumption.
  - exact IH.
Qed.

Lemma roundtrip_within_two_steps_witness :
  let samples := [131069 # 131072; -1; 1; 0; -(1 # 3)]%Q in
  Forall PcmCodec.inRange samples /\
  PcmCodec.encode PcmCodec.Truncate samples
  = [254; 127; 1; 128; 255; 127; 0; 0; 86; 213]%Z /\
  PcmCodec.within (1 # 16384) samples
    (PcmCodec.decode (PcmCodec.encode PcmCodec.Truncate samples)).
Proof.
  intros samples.
  assert (Hrange : Forall PcmCodec.inRange samples)
    by (repeat constructor; vm_compute; discriminate).
  split; [exact Hrange|].
  split; [vm_compute; reflexivity|].
  exact (roundtrip_within_two_steps PcmCodec.Truncate samples Hrange).
Defined.

(** A trailing single byte is not decoded. *)
Example decode_partial :
  PcmCodec.decode [0; 64; 255]%Z = [16384 # 32768]%Q.
Proof. reflexivity. Qed.

(** * Further properties of the component *)

(** ** Relations the callbacks are checked against *)

#[global] Instance keeps_refl P : Reflexive (keeps P).
Proof. intros s H. exact H. Qed.

#[global] Instance keeps_trans P : Transitive (keeps P).
Proof. intros s1 s2 s3 H12 H23 H. apply H23, H12, H. Qed.

#[global] Instance conversation_same_refl : Reflexive conversation_same.
Proof. intros s. repeat split. Qed.

#[global] Instance conversation_same_trans : Transitive conversation_same.
Proof.
  intros s1 s2 s3 (A1 & A2 & A3 & A4 & A5 & A6) (B1 & B2 & B3 & B4 & B5 & B6).
  repeat split; congruence.
Qed.

#[global] Instance sessions_kept_refl : Reflexive sessions_kept.
Proof. intros s h st H. exact H. Qed.

#[global] Instance sessions_kept_trans : Transitive sessions_kept.
Proof. intros s1 s2 s3 H12 H23 h st H. apply H23, H12, H. Qed.

#[global] Instance transcript_grows_refl : Reflexive transcript_grows.
Proof. intros s. unfold transcript_grows. reflexivity. Qed.

#[global] Instance transcript_grows_trans : Transitive transcript_grows.
Proof. intros s1 s2 s3 H12 H23. unfold transcript_grows in *. etransitivity; eassumption. Qed.

#[global] Instance buffer_grows_refl : Reflexive buffer_grows.
Proof. intros s. split; reflexivity. Qed.

#[global] Instance buffer_grows_trans : Transitive buffer_grows.
Proof.
  intros s1 s2 s3 [A1 A2] [B1 B2]. split; etransitivity; eassumption.
Qed.

#[global] Instance tracks_kept_refl : Reflexive tracks_kept.
Proof. intros s k c H1 H2. exists c. split; assumption. Qed.

#[global] Instance tracks_kept_trans : Transitive tracks_kept.
Proof.
  intros s1 s2 s3 H12 H23 k c H1 H2.
  destruct (H12 k c H1 H2) as (c' & H1' & H2'). exact (H23 k c' H1' H2').
Qed.

Lemma tracks_kept_same s s' : captures s' = captures s -> tracks_kept s s'.
Proof. intros E k c H1 H2. exists c. rewrite E. split; assumption. Qed.

(** [read] followed by a handler that uses what was read. *)
Lemma rel_read_bind {A} (R : App -> App -> Prop) (k : App -> Handler A) :
  (forall s, R s (final (k s s))) -> handler_rel R (read ≫= k).
Proof. intros Hk s. apply Hk. Qed.

(** ** What [startSession] leaves alone *)

Lemma onopen_conversation stream s : conversation_same s (onopen stream s).
Proof. unfold onopen. cbn. destruct (audioContexts s); repeat split. Qed.

Lemma startSession_conversation env : handler_rel conversation_same (startSession env).
Proof.
  unfold startSession, startBody, startCatch, initAudio, acquireStream, openSession.
  handler_rel_auto; try (repeat split; fail).
  apply onopen_conversation.
Qed.

Lemma acquireStream_tracks : handler_rel tracks_kept acquireStream.
Proof.
  unfold acquireStream. apply rel_read_bind. intros s k c Hk Hlive.
  unfold mbind, Handler_bind, bind, modify. cbn.
  exists c. split; [|assumption].
  rewrite lookup_insert_ne; [assumption|].
  intros E. pose proof (is_fresh (dom (captures s))) as Hf.
  rewrite E in Hf. apply Hf. apply elem_of_dom. eauto.
Qed.

Lemma onopen_tracks stream s : tracks_kept s (onopen stream s).
Proof.
  unfold onopen. cbn. destruct (audioContexts s); [|apply tracks_kept_same; reflexivity].
  intros k c Hk Hlive. cbn.
  destruct (decide (stream = k)) as [->|Hne].
  - exists (connectCapture c). rewrite lookup_alter_eq, Hk. split; [reflexivity|assumption].
  - exists c. rewrite lookup_alter_ne by assumption. split; assumption.
Qed.

Lemma startSession_tracks env : handler_rel tracks_kept (startSession env).
Proof.
  unfold startSession, startBody, startCatch, initAudio, openSession.
  handler_rel_auto;
    try apply acquireStream_tracks; try apply onopen_tracks;
    apply tracks_kept_same; reflexivity.
Qed.

Lemma openSession_sessions : handler_rel sessions_kept openSession.
Proof.
  unfold openSession. apply rel_read_bind. intros s h st Hh.
  unfold mbind, Handler_bind, bind, modify. cbn.
  rewrite lookup_insert_ne; [assumption|].
  intros E. pose proof (is_fresh (dom (sessions s))) as Hf.
  rewrite E in Hf. apply Hf. apply elem_of_dom. eauto.
Qed.

Lemma onopen_sessions stream s : sessions (onopen stream s) = sessions s.
Proof. unfold onopen. cbn. destruct (audioContexts s); reflexivity. Qed.

Lemma startSession_sessions env : handler_rel sessions_kept (startSession env).
Proof.
  unfold startSession, startBody, startCatch, initAudio, acquireStream.
  handler_rel_auto; try apply openSession_sessions;
    intros h st Hh; rewrite ?onopen_sessions; exact Hh.
Qed.

(** ** [initAudio] and a start that meets no rejection *)

Ltac unfold_handler :=
  unfold mbind, Handler_bind, bind, modify, read, await, ret, throw.

Ltac settle_awaits env :=
  repeat match goal with
  | |- context [match ?f env with _ => _ end] =>
      destruct (f env) eqn:?;
      cbn [input output resumed_input resumed_output audioContexts set_audioContexts]
  end.

(** X1. When [initAudio] completes, both audio contexts are running. With
    two running contexts in the ref it does nothing and awaits nothing; with
    any contexts in the ref it builds no new ones, so its outcome does not
    depend on how building them would end. *)
Theorem initAudio_contexts (env : StartEnv) (s : App) :
  (forall s', initAudio env s = Normal tt s' ->
     audioContexts s' = Some {| input := running; output := running |}) /\
  (audioContexts s = Some {| input := running; output := running |} ->
     initAudio env s = Normal tt s) /\
  (forall env', audioContexts s <> None ->
     resumeInput env' = resumeInput env -> resumeOutput env' = resumeOutput env ->
     initAudio env' s = initAudio env s).
Proof.
  unfold initAudio. unfold_handler.
  destruct s as [st talking tr err [[i o]|] cursor sources ref buf cleanup ns ss cs];
    cbn [audioContexts].
  - split; [|split].
    + destruct i, o;
        cbn [input output resumed_input resumed_output audioContexts set_audioContexts];
        settle_awaits env; intros s' [= <-]; reflexivity.
    + intros [= -> ->]. reflexivity.
    + intros env' _ Hi Ho. rewrite Hi, Ho. reflexivity.
  - split; [|split].
    + destruct (newAudioContexts env) as [[i o]|e]; [|discriminate].
      cbn [audioContexts set_audioContexts].
      destruct i, o;
        cbn [input output resumed_input resumed_output audioContexts set_audioContexts];
        settle_awaits env; intros s' [= <-]; reflexivity.
    + discriminate.
    + intros env' Hne. contradiction.
Qed.

Lemma startBody_success env s :
  firstRejection env s = None ->
  exists s',
    startBody env s = Normal tt s' /\
    status s' = (if connectOpens env then CONNECTED else CONNECTING) /\
    error s' = None /\
    audioContexts s' = Some {| input := running; output := running |} /\
    sessionRef s' = Some (fresh (dom (sessions s))) /\
    sessions s' = <[fresh (dom (sessions s)) := SessionOpen]> (sessions s) /\
    captures s' =
      <[fresh (dom (captures s)) :=
          {| tracksLive := true; graphConnected := connectOpens env |}]> (captures s) /\
    _audioCleanup s' =
      (if connectOpens env then Some (fresh (dom (captures s))) else _audioCleanup s).
Proof.
  unfold startBody, firstRejection, initAudio, acquireStream, openSession.
  unfold_handler.
  destruct s as [st talking tr err [[i o]|] cursor sources ref buf cleanup ns ss cs];
    cbn [audioContexts setStatus setError].
  - destruct i, o;
      cbn [input output resumed_input resumed_output audioContexts set_audioContexts];
      settle_awaits env; try discriminate; intros _;
      destruct (connectOpens env); eexists; (split; [reflexivity|]); cbn;
      rewrite ?alter_insert_eq; repeat split.
  - destruct (newAudioContexts env) as [[i o]|e]; [|discriminate].
    cbn [audioContexts set_audioContexts].
    destruct i, o;
      cbn [input output resumed_input resumed_output audioContexts set_audioContexts];
      settle_awaits env; try discriminate; intros _;
      destruct (connectOpens env); eexists; (split; [reflexivity|]); cbn;
      rewrite ?alter_insert_eq; repeat split.
Qed.

(** X2. A start none of whose awaited steps rejects does not throw and
    leaves no error message, two running audio contexts, a new open session
    handle in the session ref and a new microphone stream with live tracks.
    When [onopen] was called during the connection the status is
    [CONNECTED], the capture graph is connected and the cleanup for that
    stream is stored; otherwise the status is still [CONNECTING]. *)
Theorem startSession_success (env : StartEnv) (s : App)
  (Hok : firstRejection env s = None) :
  let s' := final (startSession env s) in
  let session := fresh (dom (sessions s)) in
  let stream := fresh (dom (captures s)) in
  threw (startSession env s) = None /\
  status s' = (if connectOpens env then CONNECTED else CONNECTING) /\
  error s' = None /\
  audioContexts s' = Some {| input := running; output := running |} /\
  sessionRef s' = Some session /\
  sessions s !! session = None /\
  sessions s' !! session = Some SessionOpen /\
  captures s !! stream = None /\
  captures s' !! stream
  = Some {| tracksLive := true; graphConnected := connectOpens env |} /\
  _audioCleanup s' = (if connectOpens env then Some stream else _audioCleanup s).
Proof.
  destruct (startBody_success env s Hok)
    as (s1 & Hbody & Hst & Herr & Hctx & Href & Hses & Hcap & Hclean).
  unfold startSession, tryCatch. rewrite Hbody. cbn [final threw].
  split; [reflexivity|]. split; [exact Hst|]. split; [exact Herr|].
  split; [exact Hctx|]. split; [exact Href|].
  split; [apply not_elem_of_dom, is_fresh|].
  split; [rewrite Hses; apply lookup_insert_eq|].
  split; [apply not_elem_of_dom, is_fresh|].
  split; [rewrite Hcap; apply lookup_insert_eq | exact Hclean].
Qed.

Lemma startSession_success_witness :
  let s' := final (startSession (startsFine true) initialApp) in
  status s' = CONNECTED /\
  sessionRef s' = Some 0%nat /\
  sessions s' !! 0%nat = Some SessionOpen /\
  captures s' !! 0%nat = Some {| tracksLive := true; graphConnected := true |} /\
  _audioCleanup s' = Some 0%nat.
Proof.
  destruct (startSession_success (startsFine true) initialApp eq_refl)
    as (_ & Hst & _ & _ & Href & _ & Hses & _ & Hcap & Hclean).
  repeat split; assumption.
Defined.

(** X3. Whether it succeeds or fails, [startSession] leaves playback (the
    scheduled nodes, the active set, the cursor, the talking flag), the
    transcript and the turn buffer as they are, changes the state of no
    session handle that exists (so it closes none, even one it replaces in
    the ref), and takes the live tracks of no microphone stream. *)
Theorem startSession_leaves_conversation (env : StartEnv) (s : App) :
  conversation_same s (final (startSession env s)) /\
  sessions_kept s (final (startSession env s)) /\
  tracks_kept s (final (startSession env s)).
Proof.
  split; [apply startSession_conversation|].
  split; [apply startSession_sessions | apply startSession_tracks].
Qed.

(** ** What [onmessage] leaves alone *)

#[global] Instance controller_same_refl : Reflexive controller_same.
Proof. intros s. repeat split. Qed.

#[global] Instance controller_same_trans : Transitive controller_same.
Proof.
  intros s1 s2 s3 (A1 & A2 & A3 & A4 & A5 & A6 & A7) (B1 & B2 & B3 & B4 & B5 & B6 & B7).
  repeat split; congruence.
Qed.

Lemma stopSources_controller s : controller_same s (stopSources s).
Proof. repeat split. Qed.

Lemma flushTurn_controller env s : controller_same s (flushTurn env s).
Proof. unfold flushTurn. destruct (_ || _); repeat split. Qed.

Lemma onmessage_controller env m : handler_rel controller_same (onmessage env m).
Proof.
  unfold onmessage, enqueue.
  handler_rel_auto; try apply flushTurn_controller; repeat split.
Qed.

(** X4. Handling a server message, whatever it carries and whether or not
    its audio payload decodes, never changes the status, the error message,
    the audio contexts, the session ref, a session handle, a microphone
    capture or the stored cleanup. *)
Theorem onmessage_leaves_controller (env : MessageEnv) (m : Msg.LiveServerMessage)
  (s : App) :
  controller_same s (final (onmessage env m s)).
Proof.
  revert s. change (handler_rel controller_same (onmessage env m)).
  unfold onmessage, enqueue.
  handler_rel_auto; try apply flushTurn_controller; try apply stopSources_controller;
    repeat split.
Qed.

(** ** The shape of [onmessage] *)

(** After the audio step nothing throws, and what follows is a function
    of the component. *)
Lemma onmessage_afterAudio env m sc s :
  Msg.serverContent m = Some sc ->
  onmessage env m s =
  match audioStep env m s with
  | Normal _ s1 => Normal tt (afterAudio env sc s1)
  | Thrown e s1 => Thrown e s1
  end.
Proof.
  intros Hsc. unfold onmessage, audioStep, afterAudio. rewrite Hsc.
  unfold mbind at 1. unfold Handler_bind, bind.
  destruct (match Msg.base64Audio m with
            | Some d => if JsString.truthy d then enqueue env else ret ()
            | None => ret ()
            end s) as [[] s1|e s1]; [|reflexivity].
  unfold_handler.
  destruct (Msg.interrupted sc), (Msg.inputTranscription sc),
    (Msg.outputTranscription sc), (Msg.turnComplete sc); reflexivity.
Qed.

Lemma onmessage_no_content env m s :
  Msg.serverContent m = None -> onmessage env m s = Normal tt s.
Proof.
  intros Hsc. unfold onmessage, Msg.base64Audio. rewrite Hsc. reflexivity.
Qed.

Lemma audioStep_payload env m d s :
  Msg.base64Audio m = Some d -> JsString.truthy d = true ->
  audioStep env m s = enqueue env s.
Proof. intros Hd Ht. unfold audioStep. rewrite Hd, Ht. reflexivity. Qed.

(** The steps after an interruption leave playback alone. *)
Lemma afterAudio_playback env sc s :
  let s1 := if Msg.interrupted sc then interrupt s else s in
  nodes (afterAudio env sc s) = nodes s1 /\
  audioSources (afterAudio env sc s) = audioSources s1 /\
  nextStartTime (afterAudio env sc s) = nextStartTime s1 /\
  isModelTalking (afterAudio env sc s) = isModelTalking s1.
Proof.
  unfold afterAudio, flushTurn.
  destruct (Msg.interrupted sc), (Msg.inputTranscription sc),
    (Msg.outputTranscription sc), (Msg.turnComplete sc); cbn;
    try match goal with |- context [if ?b then _ else _] => destruct b end;
    repeat split.
Qed.

(** X5. A message that carries both an audio payload and the interruption
    flag has its buffer scheduled and stopped at once: when the handler
    returns the new source node is stopped, the active set is empty, the
    cursor is at zero and the talking flag is off. *)
Theorem onmessage_audio_then_interrupted (env : MessageEnv) (m : Msg.LiveServerMessage)
  (sc : Msg.ServerContent) (d : jsstring) (b : AudioBuffer) (s : App)
  (Hsc : Msg.serverContent m = Some sc)
  (Haudio : Msg.base64Audio m = Some d) (Htruthy : JsString.truthy d = true)
  (Hdec : decoded env = Resolves b)
  (Hint : Msg.interrupted sc = true) :
  let s' := final (onmessage env m s) in
  threw (onmessage env m s) = None /\
  nodes s' !! fresh (dom (nodes s))
  = Some {| buffer := b;
            startedAt := Qmax (nextStartTime s) (currentTime env);
            stopped := true |} /\
  audioSources s' = ∅ /\
  nextStartTime s' = 0%Q /\
  isModelTalking s' = false.
Proof.
  cbv zeta. rewrite (onmessage_afterAudio _ _ _ _ Hsc).
  rewrite (audioStep_payload _ _ _ _ Haudio Htruthy).
  rewrite (enqueue_resolved _ _ _ Hdec). cbn [final threw].
  destruct (afterAudio_playback env sc
              (final (enqueue env s))) as (Hn & Ha & Hc & Ht).
  rewrite (enqueue_resolved _ _ _ Hdec) in Hn, Ha, Hc, Ht. cbn [final] in *.
  rewrite Hint in *. rewrite Hn, Ha, Hc, Ht.
  split; [reflexivity|]. split; [|repeat split].
  change (nodes (interrupt ?x)) with (nodes (stopSources x)).
  rewrite stopSources_lookup. cbn [audioSources nodes].
  rewrite decide_True by (apply elem_of_union_l, elem_of_singleton; reflexivity).
  rewrite lookup_insert_eq. reflexivity.
Qed.

Lemma onmessage_audio_then_interrupted_witness :
  let s' := final (onmessage (sampleEnv 1 24000 0)
                     (contentOnly (Some (js "AAAA")) true false) initialApp) in
  (exists n, nodes s' !! 0%nat = Some n /\ stopped n = true) /\
  audioSources s' = ∅ /\
  nextStartTime s' = 0%Q.
Proof.
  destruct (onmessage_audio_then_interrupted (sampleEnv 1 24000 0)
              (contentOnly (Some (js "AAAA")) true false) _ (js "AAAA")
              (sampleBuffer 24000) initialApp eq_refl eq_refl eq_refl eq_refl eq_refl)
    as (_ & Hn & Ha & Hc & _).
  split; [eexists; split; [exact Hn | reflexivity]|].
  split; assumption.
Defined.

(** ** Induction over the runs of the component *)

Lemma step_cases (P : App -> Prop) :
  (forall env s, P s -> P (final (startSession env s))) ->
  (forall s, P s -> P (stopSession s)) ->
  (forall stream s, P s -> P (onopen stream s)) ->
  (forall env m s, P s -> P (final (onmessage env m s))) ->
  (forall s, P s -> P (setError (Some connectionErrorMessage) s)) ->
  (forall s, P s -> P (onclose s)) ->
  (forall source s, P s -> P (onended source s)) ->
  (forall stream s, P s -> P (audioCleanup stream s)) ->
  forall s e, P s -> P (step s e).
Proof.
  intros Hstart Hstop Hopen Hmsg Herr Hclose Hended Hclean s e HP.
  destruct e as [env|env| |stream|env m| | |source| ]; cbn [step]; auto.
  - unfold onClick. destruct (status s); auto.
  - unfold onerror. auto.
  - unfold unmount. destruct (_audioCleanup (stopSession s)); auto.
Qed.

Lemma run_invariant (P : App -> Prop) :
  (forall s e, P s -> P (step s e)) ->
  forall es s, P s -> P (run s es).
Proof.
  intros Hstep es. induction es as [|e es IH]; intros s HP; cbn [run fold_left].
  - exact HP.
  - apply IH, Hstep, HP.
Qed.

(** ** The transcript and the turn buffer *)

#[global] Instance text_same_refl : Reflexive text_same.
Proof. intros s. split; reflexivity. Qed.

#[global] Instance text_same_trans : Transitive text_same.
Proof. intros s1 s2 s3 [A1 A2] [B1 B2]. split; congruence. Qed.

Lemma audioStep_text env m : handler_rel text_same (audioStep env m).
Proof. unfold audioStep, enqueue. handler_rel_auto; split; reflexivity. Qed.

Lemma flushTurn_prefix env s : transcript s `prefix_of` transcript (flushTurn env s).
Proof.
  unfold flushTurn. destruct (_ || _); cbn; [|reflexivity].
  apply prefix_app_r. reflexivity.
Qed.

Lemma afterAudio_transcript env sc s :
  transcript s `prefix_of` transcript (afterAudio env sc s) /\
  (Msg.turnComplete sc = false -> transcript (afterAudio env sc s) = transcript s).
Proof.
  unfold afterAudio.
  destruct (Msg.turnComplete sc).
  - split; [|discriminate].
    etransitivity; [|apply flushTurn_prefix].
    destruct (Msg.interrupted sc), (Msg.inputTranscription sc),
      (Msg.outputTranscription sc); reflexivity.
  - destruct (Msg.interrupted sc), (Msg.inputTranscription sc),
      (Msg.outputTranscription sc); split; reflexivity.
Qed.

Lemma onmessage_transcript env m s :
  transcript s `prefix_of` transcript (final (onmessage env m s)) /\
  (turnCompletes (OnMessage env m) = false ->
   transcript (final (onmessage env m s)) = transcript s).
Proof.
  destruct (Msg.serverContent m) as [sc|] eqn:Hsc.
  - rewrite (onmessage_afterAudio _ _ _ _ Hsc). cbn [turnCompletes]. rewrite Hsc.
    pose proof (audioStep_text env m s) as [Ht _].
    destruct (audioStep env m s) as [[] s1|e s1]; cbn [final] in *.
    + destruct (afterAudio_transcript env sc s1) as [Hp He]. rewrite Ht in Hp, He.
      split; assumption.
    + rewrite Ht. split; reflexivity.
  - rewrite (onmessage_no_content _ _ _ Hsc). split; reflexivity.
Qed.

Lemma stopSession_text s : text_same s (stopSession s).
Proof. unfold stopSession. destruct (sessionRef s); split; reflexivity. Qed.

Lemma onended_text source s : text_same s (onended source s).
Proof. unfold onended. cbn. destruct (decide _); split; reflexivity. Qed.

Lemma startSession_text env s : text_same s (final (startSession env s)).
Proof.
  destruct (startSession_conversation env s) as (_ & _ & _ & _ & Ht & Hb).
  split; assumption.
Qed.

Lemma onopen_text stream s : text_same s (onopen stream s).
Proof.
  destruct (onopen_conversation stream s) as (_ & _ & _ & _ & Ht & Hb). split; assumption.
Qed.

(** Every event but a server message leaves the transcript and the turn
    buffer as they are. *)
Lemma step_text s e :
  (forall env m, e <> OnMessage env m) -> text_same s (step s e).
Proof.
  intros Hne. destruct e as [env|env| |stream|env m| | |source| ]; cbn [step].
  - unfold onClick. destruct (status s);
      [apply startSession_text | reflexivity | apply stopSession_text
      | apply startSession_text].
  - apply startSession_text.
  - apply stopSession_text.
  - apply onopen_text.
  - exfalso. exact (Hne env m eq_refl).
  - unfold onerror. destruct (stopSession_text (setError (Some connectionErrorMessage) s))
      as [Ht Hb]. split; [rewrite Ht | rewrite Hb]; reflexivity.
  - split; reflexivity.
  - apply onended_text.
  - unfold unmount. destruct (stopSession_text s) as [Ht Hb].
    destruct (_audioCleanup (stopSession s)); split; cbn; assumption.
Qed.

(** X6. The transcript is append-only: every callback leaves the entries
    it found in place and in order, adding at most at the end, and only a
    server message flagged turn-complete adds any. *)
Theorem transcript_append_only (s : App) (e : Event) :
  transcript s `prefix_of` transcript (step s e) /\
  (turnCompletes e = false -> transcript (step s e) = transcript s).
Proof.
  assert (Hother : (forall env m, e <> OnMessage env m) ->
            transcript s `prefix_of` transcript (step s e) /\
            (turnCompletes e = false -> transcript (step s e) = transcript s)).
  { intros Hne. destruct (step_text s e Hne) as [Ht _]. rewrite Ht. split; reflexivity. }
  destruct e as [env|env| |stream|env m| | |source| ];
    try (apply Hother; intros ? ? ?; discriminate).
  apply onmessage_transcript.
Qed.

Lemma afterAudio_buffer env sc s :
  transcriptionBuffer (afterAudio env sc s) =
  if Msg.turnComplete sc then {| user := []; model := [] |}
  else
    {| user :=
         match Msg.inputTranscription sc with
         | Some t => appendText (user (transcriptionBuffer s)) t
         | None => user (transcriptionBuffer s)
         end;
       model :=
         match Msg.outputTranscription sc with
         | Some t => appendText (model (transcriptionBuffer s)) t
         | None => model (transcriptionBuffer s)
         end |}.
Proof.
  unfold afterAudio.
  destruct (Msg.turnComplete sc); [reflexivity|].
  destruct (Msg.interrupted sc), (Msg.inputTranscription sc),
    (Msg.outputTranscription sc); cbn; try reflexivity;
    destruct (transcriptionBuffer s); reflexivity.
Qed.

Lemma appendText_prefix buf t : buf `prefix_of` appendText buf t.
Proof. unfold appendText, JsString.concat. apply prefix_app_r. reflexivity. Qed.

(** X7. Until a turn is flushed the turn buffer is append-only: a
    callback other than the handling of a message flagged turn-complete
    leaves what each of the two fields holds in place, adding at most at
    the end; and only a server message adds anything. *)
Theorem buffer_append_only (s : App) (e : Event) :
  (turnCompletes e = false -> buffer_grows s (step s e)) /\
  ((forall env m, e <> OnMessage env m) ->
   transcriptionBuffer (step s e) = transcriptionBuffer s).
Proof.
  split.
  - intros Hturn.
    destruct e as [env|env| |stream|env m| | |source| ];
      try (match goal with |- buffer_grows _ (step _ ?ev) =>
             destruct (step_text s ev ltac:(intros ? ? ?; discriminate)) as [_ Hb]
           end; unfold buffer_grows; rewrite Hb; split; reflexivity).
    cbn [step turnCompletes] in *. unfold buffer_grows.
    destruct (Msg.serverContent m) as [sc|] eqn:Hsc.
    + rewrite (onmessage_afterAudio _ _ _ _ Hsc).
      pose proof (audioStep_text env m s) as [_ Hb].
      destruct (audioStep env m s) as [[] s1|err s1]; cbn [final] in *.
      * rewrite afterAudio_buffer, Hturn, Hb. cbn [user model].
        split.
        -- destruct (Msg.inputTranscription sc); [apply appendText_prefix | reflexivity].
        -- destruct (Msg.outputTranscription sc); [apply appendText_prefix | reflexivity].
      * rewrite Hb. split; reflexivity.
    + rewrite (onmessage_no_content _ _ _ Hsc). split; reflexivity.
  - intros Hne. apply (step_text s e Hne).
Qed.

Lemma flushTurn_transcript_of env s1 s2 :
  transcript s1 = transcript s2 -> transcriptionBuffer s1 = transcriptionBuffer s2 ->
  transcript (flushTurn env s1) = transcript (flushTurn env s2).
Proof.
  intros Ht Hb. unfold flushTurn. rewrite Hb.
  destruct (_ || _); cbn; rewrite Ht; reflexivity.
Qed.

(** X8. A message flagged turn-complete whose handler returns leaves the
    turn buffer empty, and what it appends to the transcript is the flush
    of the buffer with the fragments of that same message appended first:
    text that arrives together with the end of the turn belongs to that
    turn. *)
Theorem onmessage_turn_complete (env : MessageEnv) (m : Msg.LiveServerMessage)
  (sc : Msg.ServerContent) (s : App)
  (Hsc : Msg.serverContent m = Some sc)
  (Hturn : Msg.turnComplete sc = true)
  (Hreturns : threw (onmessage env m s) = None) :
  let s' := final (onmessage env m s) in
  let withFragments :=
    {| user :=
         match Msg.inputTranscription sc with
         | Some t => appendText (user (transcriptionBuffer s)) t
         | None => user (transcriptionBuffer s)
         end;
       model :=
         match Msg.outputTranscription sc with
         | Some t => appendText (model (transcriptionBuffer s)) t
         | None => model (transcriptionBuffer s)
         end |} in
  transcriptionBuffer s' = {| user := []; model := [] |} /\
  transcript s' = transcript (flushTurn env (set_transcriptionBuffer withFragments s)).
Proof.
  cbv zeta. rewrite (onmessage_afterAudio _ _ _ _ Hsc) in *.
  pose proof (audioStep_text env m s) as [Ht Hb].
  destruct (audioStep env m s) as [[] s1|err s1]; cbn [final threw] in *;
    [|discriminate].
  split; [rewrite afterAudio_buffer, Hturn; reflexivity|].
  unfold afterAudio. rewrite Hturn.
  apply flushTurn_transcript_of.
  - destruct (Msg.interrupted sc), (Msg.inputTranscription sc),
      (Msg.outputTranscription sc); cbn; exact Ht.
  - destruct (Msg.interrupted sc), (Msg.inputTranscription sc),
      (Msg.outputTranscription sc); cbn; rewrite ?Hb; try reflexivity;
      destruct (transcriptionBuffer s); reflexivity.
Qed.

Lemma onmessage_turn_complete_witness :
  let m := {| Msg.serverContent := Some
                {| Msg.modelTurn := None;
                   Msg.interrupted := false;
                   Msg.inputTranscription := None;
                   Msg.outputTranscription := Some {| Msg.text := Some (js " there") |};
                   Msg.turnComplete := true |} |} in
  let s := appendModel {| Msg.text := Some (js "Hello") |} initialApp in
  let s' := final (onmessage (sampleEnv 0 0 1000) m s) in
  transcriptionBuffer s' = {| user := []; model := [] |} /\
  transcript s'
  = [ {| type := TyModel; text := js "Hello there"; timestamp := 1001 |} ].
Proof.
  intros m s s'.
  destruct (onmessage_turn_complete (sampleEnv 0 0 1000) m _ s eq_refl eq_refl eq_refl)
    as [Hb Ht].
  split; [exact Hb|]. fold s' in Ht. rewrite Ht. reflexivity.
Defined.

(** ** Trimmed texts *)

Lemma trimStart_head s c r :
  JsString.trimStart s = c :: r -> JsString.isWhiteSpace c = false.
Proof.
  induction s as [|a s IH]; cbn; [discriminate|].
  destruct (JsString.isWhiteSpace a) eqn:Ha; [exact IH|].
  intros [= <- <-]. exact Ha.
Qed.

Lemma trimStart_snoc l c :
  JsString.isWhiteSpace c = false ->
  JsString.trimStart (l ++ [c]) = JsString.trimStart l ++ [c].
Proof.
  intros Hc. induction l as [|a l IH]; cbn.
  - rewrite Hc. reflexivity.
  - destruct (JsString.isWhiteSpace a); [exact IH | reflexivity].
Qed.

Lemma last_rev {A} (l : list A) : last (rev l) = head l.
Proof. destruct l as [|a l]; [reflexivity|]. cbn [rev]. apply last_snoc. Qed.

(** What [trim] returns is empty or starts and ends with a code unit that
    is not white space. *)
Lemma trim_trimmed t : JsString.trim t = [] \/ trimmed (JsString.trim t).
Proof.
  unfold JsString.trim.
  destruct (JsString.trimStart t) as [|c r] eqn:Hs; [left; reflexivity|].
  right. pose proof (trimStart_head _ _ _ Hs) as Hc.
  assert (Hend : JsString.trimEnd (c :: r) = c :: rev (JsString.trimStart (rev r))).
  { unfold JsString.trimEnd. cbn [rev].
    rewrite (trimStart_snoc _ _ Hc), rev_app_distr. reflexivity. }
  split; [rewrite Hend; discriminate|]. split.
  - rewrite Hend. intros x [= <-]. exact Hc.
  - unfold JsString.trimEnd. rewrite last_rev. intros x Hx.
    destruct (JsString.trimStart (rev (c :: r))) as [|y ys] eqn:Hy; [discriminate|].
    injection Hx as <-. exact (trimStart_head _ _ _ Hy).
Qed.

Lemma flushTurn_trimmed env s :
  Forall (fun entry => trimmed (text entry)) (transcript s) ->
  Forall (fun entry => trimmed (text entry)) (transcript (flushTurn env s)).
Proof.
  intros H. unfold flushTurn.
  destruct (trim_trimmed (user (transcriptionBuffer s))) as [Hu|Hu];
    destruct (trim_trimmed (model (transcriptionBuffer s))) as [Hm|Hm];
    try rewrite Hu; try rewrite Hm; cbn.
  - exact H.
  - destruct (JsString.trim (model (transcriptionBuffer s))) as [|x xs] eqn:E;
      [destruct Hm as [Hm _]; congruence|]. cbn.
    apply Forall_app. split; [exact H|]. constructor; [exact Hm | constructor].
  - destruct (JsString.trim (user (transcriptionBuffer s))) as [|x xs] eqn:E;
      [destruct Hu as [Hu _]; congruence|]. cbn.
    apply Forall_app. split; [exact H|]. constructor; [exact Hu | constructor].
  - destruct (JsString.trim (user (transcriptionBuffer s))) as [|x xs] eqn:E;
      [destruct Hu as [Hu _]; congruence|].
    destruct (JsString.trim (model (transcriptionBuffer s))) as [|y ys] eqn:E';
      [destruct Hm as [Hm _]; congruence|]. cbn.
    apply Forall_app. split; [exact H|].
    constructor; [exact Hu | constructor; [exact Hm | constructor]].
Qed.

Lemma step_trimmed s e :
  Forall (fun entry => trimmed (text entry)) (transcript s) ->
  Forall (fun entry => trimmed (text entry)) (transcript (step s e)).
Proof.
  intros H. destruct e as [env|env| |stream|env m| | |source| ];
    try (match goal with |- context [step _ ?ev] =>
           destruct (step_text s ev ltac:(intros ? ? ?; discriminate)) as [Ht _]
         end; rewrite Ht; exact H).
  cbn [step]. destruct (Msg.serverContent m) as [sc|] eqn:Hsc.
  - rewrite (onmessage_afterAudio _ _ _ _ Hsc).
    pose proof (audioStep_text env m s) as [Ht _].
    destruct (audioStep env m s) as [[] s1|err s1]; cbn [final] in *;
      [|rewrite Ht; exact H].
    unfold afterAudio. destruct (Msg.turnComplete sc).
    + apply flushTurn_trimmed.
      destruct (Msg.interrupted sc), (Msg.inputTranscription sc),
        (Msg.outputTranscription sc); cbn; rewrite Ht; exact H.
    + destruct (Msg.interrupted sc), (Msg.inputTranscription sc),
        (Msg.outputTranscription sc); cbn; rewrite Ht; exact H.
  - rewrite (onmessage_no_content _ _ _ Hsc). exact H.
Qed.

(** X9. In every run of the component from its initial state, each entry
    of the transcript has a text that is not empty and neither starts nor
    ends with white space. *)
Theorem transcript_entries_trimmed (es : list Event) :
  Forall (fun entry => trimmed (text entry)) (transcript (run initialApp es)).
Proof.
  apply (run_invariant
           (fun s => Forall (fun entry => trimmed (text entry)) (transcript s))).
  - intros s e. apply step_trimmed.
  - constructor.
Qed.

(** ** The playback sequencer in every run *)

Lemma sequencer_ok_mono s s' :
  nodes s' = nodes s -> audioSources s' ⊆ audioSources s ->
  (nextStartTime s <= nextStartTime s')%Q ->
  sequencer_ok s -> sequencer_ok s'.
Proof.
  intros Hn Ha Hc (H0 & H1 & H2). split; [|split].
  - intros id Hid. rewrite Hn. apply H0, Ha, Hid.
  - intros id n Hid Hl. rewrite Hn in Hl.
    eapply Qle_trans; [apply (H1 id n (Ha _ Hid) Hl) | exact Hc].
  - intros i j ni nj Hi Hj Hne Hli Hlj. rewrite Hn in Hli, Hlj.
    exact (H2 i j ni nj (Ha _ Hi) (Ha _ Hj) Hne Hli Hlj).
Qed.

Lemma sequencer_ok_same s s' :
  nodes s' = nodes s -> audioSources s' = audioSources s ->
  nextStartTime s' = nextStartTime s ->
  sequencer_ok s -> sequencer_ok s'.
Proof.
  intros Hn Ha Hc. apply sequencer_ok_mono; [exact Hn | rewrite Ha; reflexivity|].
  rewrite Hc. apply Qle_refl.
Qed.

Lemma sequencer_ok_empty s : audioSources s = ∅ -> sequencer_ok s.
Proof.
  intros He. split; [|split].
  - intros id Hid. rewrite He in Hid. exfalso. exact (not_elem_of_empty id Hid).
  - intros id n Hid. rewrite He in Hid. exfalso. exact (not_elem_of_empty id Hid).
  - intros i j ni nj Hi. rewrite He in Hi. exfalso. exact (not_elem_of_empty i Hi).
Qed.

(** Scheduling one more buffer at or after the cursor. *)
Lemma sequencer_ok_enqueue env b s :
  decoded env = Resolves b -> sequencer_ok s -> sequencer_ok (final (enqueue env s)).
Proof.
  intros Hdec (H0 & H1 & H2). rewrite (enqueue_resolved _ _ _ Hdec). cbn [final].
  set (f := fresh (dom (nodes s))).
  set (t := Qmax (nextStartTime s) (currentTime env)).
  set (new := {| buffer := b; startedAt := t; stopped := false |}).
  assert (Hct : (nextStartTime s <= t)%Q) by apply Q.le_max_l.
  pose proof (duration_nonneg b) as Hd.
  assert (Hold : forall id, id ∈ audioSources s -> id <> f).
  { intros id Hid E. destruct (H0 id Hid) as (n & Hn & _).
    subst id. unfold f in Hn. rewrite fresh_node_unused in Hn. discriminate. }
  assert (Hin : forall id, id ∈ ({[f]} ∪ audioSources s : gset nat) ->
                           id = f \/ (id <> f /\ id ∈ audioSources s)).
  { intros id Hid. apply elem_of_union in Hid as [Hid|Hid].
    - left. apply elem_of_singleton in Hid. exact Hid.
    - right. split; [apply Hold|]; exact Hid. }
  unfold sequencer_ok, active_scheduled, active_back_to_back.
  cbn [audioSources nodes nextStartTime]. fold f t new.
  split; [|split].
  - intros id Hid. destruct (Hin id Hid) as [->|[Hne Hid']].
    + exists new. rewrite lookup_insert_eq. split; reflexivity.
    + rewrite lookup_insert_ne by congruence. apply H0, Hid'.
  - intros id n Hid Hl. destruct (Hin id Hid) as [->|[Hne Hid']].
    + rewrite lookup_insert_eq in Hl. injection Hl as <-.
      unfold finish. cbn. apply Qle_refl.
    + rewrite lookup_insert_ne in Hl by congruence.
      pose proof (H1 id n Hid' Hl). lra.
  - intros i j ni nj Hi Hj Hne Hli Hlj.
    destruct (Hin i Hi) as [->|[Hnei Hi']], (Hin j Hj) as [->|[Hnej Hj']].
    + contradiction.
    + rewrite lookup_insert_eq in Hli. injection Hli as <-.
      rewrite lookup_insert_ne in Hlj by congruence.
      right. pose proof (H1 j nj Hj' Hlj). change (startedAt new) with t. lra.
    + rewrite lookup_insert_eq in Hlj. injection Hlj as <-.
      rewrite lookup_insert_ne in Hli by congruence.
      left. pose proof (H1 i ni Hi' Hli). change (startedAt new) with t. lra.
    + rewrite lookup_insert_ne in Hli, Hlj by congruence.
      exact (H2 i j ni nj Hi' Hj' Hne Hli Hlj).
Qed.

Lemma sequencer_ok_audioStep env m s :
  sequencer_ok s -> sequencer_ok (final (audioStep env m s)).
Proof.
  intros Hok. unfold audioStep.
  destruct (Msg.base64Audio m) as [d|]; [|exact Hok].
  destruct (JsString.truthy d); [|exact Hok].
  destruct (decoded env) as [b|err] eqn:Hdec.
  - apply (sequencer_ok_enqueue _ _ _ Hdec Hok).
  - rewrite (enqueue_rejected _ _ _ Hdec). cbn [final].
    apply (sequencer_ok_mono s); [reflexivity | reflexivity | apply Q.le_max_l | exact Hok].
Qed.

Lemma sequencer_ok_step s e : sequencer_ok s -> sequencer_ok (step s e).
Proof.
  revert s e. apply step_cases.
  - intros env s. destruct (startSession_conversation env s) as (Hn & Ha & Hc & _).
    apply sequencer_ok_same; assumption.
  - intros s _. apply sequencer_ok_empty. reflexivity.
  - intros stream s. destruct (onopen_conversation stream s) as (Hn & Ha & Hc & _).
    apply sequencer_ok_same; assumption.
  - intros env m s Hok. destruct (Msg.serverContent m) as [sc|] eqn:Hsc.
    + rewrite (onmessage_afterAudio _ _ _ _ Hsc).
      pose proof (sequencer_ok_audioStep env m s Hok) as Hok1.
      destruct (audioStep env m s) as [[] s1|err s1]; cbn [final] in *; [|exact Hok1].
      destruct (afterAudio_playback env sc s1) as (Hn & Ha & Hc & _).
      destruct (Msg.interrupted sc).
      * apply sequencer_ok_empty. rewrite Ha. reflexivity.
      * apply (sequencer_ok_same s1); assumption.
    + rewrite (onmessage_no_content _ _ _ Hsc). exact Hok.
  - intros s. apply sequencer_ok_same; reflexivity.
  - intros s. apply sequencer_ok_same; reflexivity.
  - intros source s. unfold onended. cbn.
    destruct (decide _); apply sequencer_ok_mono; cbn;
      try reflexivity; try apply Qle_refl;
      intros x Hx; apply elem_of_difference in Hx as [Hx _]; exact Hx.
  - intros stream s. apply sequencer_ok_same; reflexivity.
Qed.

(** X10. In every run of the component from its initial state, each
    source of the active set is a node that was started and on which
    [stop()] has not been called: a source that was stopped is never left
    in the set. *)
Theorem active_sources_scheduled (es : list Event) :
  active_scheduled (run initialApp es).
Proof.
  assert (Hok : sequencer_ok (run initialApp es)).
  { apply (run_invariant sequencer_ok).
    - intros s e. apply sequencer_ok_step.
    - apply sequencer_ok_empty. reflexivity. }
  destruct Hok as [Hscheduled _]. exact Hscheduled.
Qed.

(** X11. In every run of the component from its initial state, no source
    of the active set plays beyond the cursor, and no two sources of the
    set play at the same time: of any two, one ends before or when the
    other starts. *)
Theorem active_sources_back_to_back (es : list Event) :
  active_back_to_back (run initialApp es).
Proof.
  assert (Hok : sequencer_ok (run initialApp es)).
  { apply (run_invariant sequencer_ok).
    - intros s e. apply sequencer_ok_step.
    - apply sequencer_ok_empty. reflexivity. }
  destruct Hok as [_ Hbacktoback]. exact Hbacktoback.
Qed.

(** ** Any number of buffers *)

Lemma enqueue_keeps_node env s id n :
  nodes s !! id = Some n -> nodes (final (enqueue env s)) !! id = Some n.
Proof.
  intros Hn. destruct (decoded env) as [b|err] eqn:Hdec.
  - rewrite (enqueue_resolved _ _ _ Hdec). cbn [final nodes].
    rewrite lookup_insert_ne; [exact Hn|].
    intros E. rewrite <- E, fresh_node_unused in Hn. discriminate.
  - rewrite (enqueue_rejected _ _ _ Hdec). exact Hn.
Qed.

Lemma enqueueAll_keeps_node envs : forall s id n,
  nodes s !! id = Some n -> nodes (enqueueAll envs s) !! id = Some n.
Proof.
  induction envs as [|env envs IH]; intros s id n Hn; cbn [enqueueAll].
  - exact Hn.
  - apply IH, enqueue_keeps_node, Hn.
Qed.

Lemma playedUntil_proper bs : forall t t', (t == t')%Q -> (playedUntil t bs == playedUntil t' bs)%Q.
Proof.
  induction bs as [|b bs IH]; intros t t' E; cbn.
  - exact E.
  - apply IH. rewrite E. reflexivity.
Qed.

Lemma backToBack_proper bs : forall t t',
  (t == t')%Q -> Forall2 Qeq (backToBack t bs) (backToBack t' bs).
Proof.
  induction bs as [|b bs IH]; intros t t' E; cbn; constructor.
  - exact E.
  - apply IH. rewrite E. reflexivity.
Qed.

Lemma enqueueAll_lagging envs : forall bs s t,
  (nextStartTime s == t)%Q -> clockLags t envs bs ->
  Forall2 (fun id start =>
             exists n, nodes (enqueueAll envs s) !! id = Some n /\
                       (startedAt n == start)%Q)
          (enqueuedSources envs s) (backToBack t bs) /\
  (nextStartTime (enqueueAll envs s) == playedUntil t bs)%Q /\
  audioSources (enqueueAll envs s)
  = list_to_set (enqueuedSources envs s) ∪ audioSources s.
Proof.
  induction envs as [|env envs IH]; intros [|b bs] s t Ht Hlag;
    cbn [clockLags] in Hlag; try contradiction.
  - cbn. split; [constructor|]. split; [exact Ht|].
    symmetry. apply (left_id_L ∅ (∪)).
  - destruct Hlag as (Hdec & Hclock & Hrest).
    cbn [enqueueAll enqueuedSources backToBack playedUntil fold_left].
    destruct (enqueue_step env b s Hdec) as (_ & Hnodes & Hset & Hcur).
    assert (Hmax : (Qmax (nextStartTime s) (currentTime env) == t)%Q).
    { rewrite Q.max_l; [exact Ht | rewrite Ht; exact Hclock]. }
    assert (Hcur' : (nextStartTime (final (enqueue env s)) == t + duration b)%Q).
    { rewrite Hcur, Hmax. reflexivity. }
    destruct (IH bs (final (enqueue env s)) (t + duration b)%Q Hcur' Hrest)
      as (Hstarts & Hend & Hsets).
    split; [|split].
    + constructor; [|exact Hstarts].
      eexists. split.
      * apply enqueueAll_keeps_node. rewrite Hnodes. apply lookup_insert_eq.
      * exact Hmax.
    + exact Hend.
    + rewrite Hsets, Hset. cbn [list_to_set foldr].
      apply set_eq. intros x. rewrite !elem_of_union. tauto.
Qed.

(** X12. Any number of buffers enqueued one after the other play
    back to back: when the first is enqueued at a clock the cursor has not
    passed and each later one at a clock the cursor is ahead of, the first
    starts at the clock of its enqueue and each later one when the one
    before it ends; all are in the active set, and the cursor ends where
    the last one ends. *)
Theorem enqueue_any_number_back_to_back (s : App) (env : MessageEnv) (b : AudioBuffer)
  (envs : list MessageEnv) (bs : list AudioBuffer)
  (Hdec : decoded env = Resolves b)
  (Hfirst : (nextStartTime s <= currentTime env)%Q)
  (Hlag : clockLags (currentTime env + duration b)%Q envs bs) :
  let s' := enqueueAll (env :: envs) s in
  Forall2 (fun id start =>
             exists n, nodes s' !! id = Some n /\ (startedAt n == start)%Q)
          (enqueuedSources (env :: envs) s)
          (backToBack (currentTime env) (b :: bs)) /\
  (nextStartTime s' == playedUntil (currentTime env) (b :: bs))%Q /\
  audioSources s' = list_to_set (enqueuedSources (env :: envs) s) ∪ audioSources s.
Proof.
  cbv zeta. cbn [enqueueAll enqueuedSources backToBack playedUntil fold_left].
  destruct (enqueue_step env b s Hdec) as (_ & Hnodes & Hset & Hcur).
  assert (Hmax : (Qmax (nextStartTime s) (currentTime env) == currentTime env)%Q)
    by (apply Q.max_r; exact Hfirst).
  assert (Hcur' : (nextStartTime (final (enqueue env s))
                   == currentTime env + duration b)%Q)
    by (rewrite Hcur, Hmax; reflexivity).
  destruct (enqueueAll_lagging envs bs (final (enqueue env s)) _ Hcur' Hlag)
    as (Hstarts & Hend & Hsets).
  split; [|split].
  - constructor; [|exact Hstarts].
    eexists. split.
    + apply enqueueAll_keeps_node. rewrite Hnodes. apply lookup_insert_eq.
    + exact Hmax.
  - exact Hend.
  - rewrite Hsets, Hset. cbn [list_to_set foldr].
    apply set_eq. intros x. rewrite !elem_of_union. tauto.
Qed.

Lemma enqueue_any_number_back_to_back_witness :
  let envs := [sampleEnv (3 # 4) 12000 0; sampleEnv 1 6000 0; sampleEnv 2 24000 0] in
  let bs := [sampleBuffer 12000; sampleBuffer 6000; sampleBuffer 24000] in
  let s' := enqueueAll (sampleEnv (1 # 2) 24000 0 :: envs) initialApp in
  Forall2 (fun id start =>
             exists n, nodes s' !! id = Some n /\ (startedAt n == start)%Q)
          [0; 1; 2; 3]%nat (backToBack (1 # 2) (sampleBuffer 24000 :: bs)) /\
  Forall2 Qeq (backToBack (1 # 2) (sampleBuffer 24000 :: bs)) [1 # 2; 3 # 2; 2; 9 # 4]%Q /\
  (nextStartTime s' == 13 # 4)%Q.
Proof.
  intros envs bs s'.
  assert (Hlag : clockLags (currentTime (sampleEnv (1 # 2) 24000 0)
                            + duration (sampleBuffer 24000))%Q envs bs).
  { cbn. repeat split; vm_compute; discriminate. }
  destruct (enqueue_any_number_back_to_back initialApp (sampleEnv (1 # 2) 24000 0)
              (sampleBuffer 24000) envs bs eq_refl ltac:(vm_compute; discriminate) Hlag)
    as (Hstarts & Hend & _).
  split; [exact Hstarts|].
  split; [repeat constructor|].
  eapply Qeq_trans; [exact Hend | vm_compute; reflexivity].
Defined.

(** ** The end of a source *)

(** One source ends: it leaves the active set, and the talking flag goes
    off exactly when no source is left in the set. *)
Lemma onended_last_source (source : nat) (s : App) :
  audioSources (onended source s) = audioSources s ∖ {[source]} /\
  nodes (onended source s) = nodes s /\
  nextStartTime (onended source s) = nextStartTime s /\
  isModelTalking (onended source s)
  = (if decide (audioSources s ⊆ {[source]}) then false else isModelTalking s).
Proof.
  unfold onended. cbn [audioSources set_audioSources].
  destruct (decide (size (audioSources s ∖ {[source]}) = 0%nat)) as [Hz|Hnz].
  - apply size_empty_inv in Hz.
    rewrite decide_True; [repeat split|].
    intros x Hx. destruct (decide (x = source)) as [->|Hne].
    + apply elem_of_singleton. reflexivity.
    + exfalso. apply (not_elem_of_empty (C := gset nat) x). apply Hz.
      apply elem_of_difference. split; [exact Hx|].
      intros Hs. apply elem_of_singleton in Hs. contradiction.
  - rewrite decide_False; [repeat split|].
    intros Hsub. apply Hnz. apply size_empty_iff.
    intros x. split; [|intros Hx; exfalso; exact (not_elem_of_empty x Hx)].
    intros Hx. apply elem_of_difference in Hx as [Hx Hns]. exfalso. apply Hns, Hsub, Hx.
Qed.

Lemma endAll_snoc ids id s : endAll (ids ++ [id]) s = onended id (endAll ids s).
Proof. unfold endAll. rewrite fold_left_app. reflexivity. Qed.

Lemma endAll_playback ids s :
  audioSources (endAll ids s) = audioSources s ∖ list_to_set ids /\
  nodes (endAll ids s) = nodes s /\
  nextStartTime (endAll ids s) = nextStartTime s.
Proof.
  induction ids as [|id ids IH] using rev_ind.
  - cbn. repeat split. apply set_eq. intros x.
    rewrite elem_of_difference. split; [|tauto].
    intros Hx. split; [exact Hx | apply not_elem_of_empty].
  - rewrite endAll_snoc.
    destruct (onended_last_source id (endAll ids s)) as (Ha & Hn & Hc & _).
    destruct IH as (IHa & IHn & IHc).
    rewrite Ha, Hn, Hc, IHa, IHn, IHc. repeat split.
    apply set_eq. intros x.
    rewrite list_to_set_app, !elem_of_difference, elem_of_union. cbn.
    rewrite elem_of_union, elem_of_singleton. split.
    + intros [[Hx Hni] Hne]. split; [exact Hx|]. intros [H|[H|H]]; try tauto.
      exact (not_elem_of_empty x H).
    + intros [Hx Hn']. repeat split; [exact Hx | tauto | tauto].
Qed.

(** X13. Once every source of the active set has ended, in whatever order
    and whatever other sources end as well, the active set is empty and
    the talking flag is off; the scheduled nodes and the cursor are as
    they were. *)
Theorem all_sources_ended (s : App) (ids : list nat)
  (Hsome : ids <> [])
  (Hall : audioSources s ⊆ list_to_set ids) :
  audioSources (endAll ids s) = ∅ /\
  isModelTalking (endAll ids s) = false /\
  nodes (endAll ids s) = nodes s /\
  nextStartTime (endAll ids s) = nextStartTime s.
Proof.
  destruct (endAll_playback ids s) as (Ha & Hn & Hc).
  assert (Hempty : audioSources (endAll ids s) = ∅).
  { rewrite Ha. apply set_eq. intros x. rewrite elem_of_difference. split.
    - intros [Hx Hnx]. exfalso. apply Hnx, Hall, Hx.
    - intros Hx. exfalso. exact (not_elem_of_empty x Hx). }
  split; [exact Hempty|]. split; [|split; assumption].
  destruct ids as [|id ids] using rev_ind; [contradiction|]. clear IHids.
  rewrite endAll_snoc in *.
  destruct (onended_last_source id (endAll ids s)) as (Ha' & _ & _ & Ht).
  rewrite Ht. rewrite decide_True; [reflexivity|].
  intros x Hx. destruct (decide (x = id)) as [->|Hne].
  - apply elem_of_singleton. reflexivity.
  - exfalso. apply (not_elem_of_empty (C := gset nat) x). rewrite <- Hempty, Ha'.
    apply elem_of_difference. split; [exact Hx|].
    intros Hs. apply elem_of_singleton in Hs. contradiction.
Qed.

Lemma all_sources_ended_witness :
  let s := enqueueAll [sampleEnv 1 24000 0; sampleEnv 1 12000 0] initialApp in
  isModelTalking s = true /\
  audioSources (endAll [1; 0]%nat s) = ∅ /\
  isModelTalking (endAll [1; 0]%nat s) = false.
Proof.
  intros s.
  assert (Hall : audioSources s ⊆ list_to_set [1; 0]%nat).
  { intros x Hx. vm_compute in Hx. vm_compute. exact Hx. }
  destruct (all_sources_ended s [1; 0]%nat ltac:(discriminate) Hall) as (Ha & Ht & _).
  split; [reflexivity|]. split; assumption.
Defined.

(** ** The microphone *)

Lemma stopSession_tracks s : tracks_kept s (stopSession s).
Proof. apply tracks_kept_same. apply stopSession_captures. Qed.

(** X15. No callback other than the unmount cleanup takes the live tracks
    of a microphone stream: after a start, a stop, a click on the button, a
    server message, a remote error or close, or the end of a source, every
    stream that had live tracks still has them. *)
Theorem only_unmount_releases_microphone (s : App) (e : Event) (Hnot : e <> Unmount) :
  tracks_kept s (step s e).
Proof.
  destruct e as [env|env| |stream|env m| | |source| ]; cbn [step].
  - unfold onClick. destruct (status s);
      [apply startSession_tracks | reflexivity | apply stopSession_tracks
      | apply startSession_tracks].
  - apply startSession_tracks.
  - apply stopSession_tracks.
  - apply onopen_tracks.
  - apply tracks_kept_same. apply (onmessage_controller env m s).
  - unfold onerror. apply tracks_kept_same.
    apply (stopSession_captures (setError (Some connectionErrorMessage) s)).
  - apply tracks_kept_same. reflexivity.
  - apply tracks_kept_same. unfold onended. cbn. destruct (decide _); reflexivity.
  - contradiction.
Qed.

Lemma only_unmount_releases_microphone_witness :
  let s := run initialApp [Click (startsFine true)] in
  captures s !! 0%nat = Some {| tracksLive := true; graphConnected := true |} /\
  exists c, captures (step s OnError) !! 0%nat = Some c /\ tracksLive c = true.
Proof.
  intros s. split; [reflexivity|].
  exact (only_unmount_releases_microphone s OnError ltac:(discriminate) 0%nat
           {| tracksLive := true; graphConnected := true |} eq_refl eq_refl).
Defined.

Lemma stopSession_audioCleanup stream s :
  stopSession (audioCleanup stream s) = audioCleanup stream (stopSession s).
Proof. unfold stopSession. cbn. destruct (sessionRef s); reflexivity. Qed.

Lemma audioCleanup_twice stream s :
  audioCleanup stream (audioCleanup stream s) = audioCleanup stream s.
Proof.
  unfold audioCleanup. cbn. rewrite alter_alter_eq. reflexivity.
Qed.

Lemma stopSession_twice s : stopSession (stopSession s) = stopSession s.
Proof.
  assert (Href : sessionRef (stopSession s) = None)
    by (unfold stopSession; destruct (sessionRef s) eqn:E; cbn; [reflexivity | exact E]).
  assert (Hst : status (stopSession s) = DISCONNECTED) by reflexivity.
  assert (Htalk : isModelTalking (stopSession s) = false) by reflexivity.
  rewrite (stopSession_no_resources _ Href eq_refl).
  destruct (stopSession s); simpl in *; subst; reflexivity.
Qed.

(** X16. The unmount cleanup stops the session as [stopSession] does and
    releases the one microphone capture whose cleanup is stored: its tracks
    are stopped and its graph disconnected. Every other capture, such as
    the stream of an earlier start or of a start that failed after the
    microphone was granted, is left as it is. Running the cleanup twice is
    running it once. *)
Theorem unmount_releases_stored_capture (s : App) :
  status (unmount s) = DISCONNECTED /\
  sessionRef (unmount s) = None /\
  audioSources (unmount s) = ∅ /\
  (forall stream, _audioCleanup s = Some stream ->
     captures (unmount s) !! stream = releaseCapture <$> captures s !! stream) /\
  (forall stream, _audioCleanup s <> Some stream ->
     captures (unmount s) !! stream = captures s !! stream) /\
  unmount (unmount s) = unmount s.
Proof.
  destruct (stopSession_captures s) as [Hcap Hclean].
  assert (Href : sessionRef (stopSession s) = None)
    by (unfold stopSession; destruct (sessionRef s) eqn:E; cbn; [reflexivity | exact E]).
  unfold unmount. rewrite Hclean.
  destruct (_audioCleanup s) as [k|] eqn:Hk.
  - split; [reflexivity|]. split; [exact Href|]. split; [reflexivity|].
    split; [|split].
    + intros stream [= <-]. unfold audioCleanup. cbn [captures set_captures].
      rewrite Hcap. apply lookup_alter_eq.
    + intros stream Hne. unfold audioCleanup. cbn [captures set_captures].
      rewrite Hcap. apply lookup_alter_ne. congruence.
    + rewrite stopSession_audioCleanup, stopSession_twice.
      change (_audioCleanup (audioCleanup k (stopSession s)))
        with (_audioCleanup (stopSession s)).
      rewrite Hclean. apply audioCleanup_twice.
  - split; [reflexivity|]. split; [exact Href|]. split; [reflexivity|].
    split; [discriminate|]. split; [intros; exact (f_equal (fun m => m !! stream) Hcap)|].
    rewrite stopSession_twice, Hclean. reflexivity.
Qed.

(** ** A payload that does not decode *)

(** X14. When the audio payload of a message fails to decode, the handler
    throws the decoding error after having turned the talking flag on and
    raised the cursor to the device clock: nothing is scheduled, and
    whatever else the message carries (an interruption, transcription
    fragments, the end of the turn) is not handled. *)
Theorem onmessage_payload_not_decoded (env : MessageEnv) (m : Msg.LiveServerMessage)
  (d : jsstring) (e : JsError) (s : App)
  (Haudio : Msg.base64Audio m = Some d) (Htruthy : JsString.truthy d = true)
  (Hdec : decoded env = Rejects e) :
  onmessage env m s =
  Thrown e (set_nextStartTime (Qmax (nextStartTime s) (currentTime env))
              (setIsModelTalking true s)).
Proof.
  destruct (Msg.serverContent m) as [sc|] eqn:Hsc.
  - rewrite (onmessage_afterAudio _ _ _ _ Hsc).
    rewrite (audioStep_payload _ _ _ _ Haudio Htruthy).
    rewrite (enqueue_rejected _ _ _ Hdec). reflexivity.
  - unfold Msg.base64Audio in Haudio. rewrite Hsc in Haudio. discriminate.
Qed.

Lemma onmessage_payload_not_decoded_witness :
  let env := {| currentTime := 1;
                decoded := Rejects {| message := Some (js "bad payload") |};
                dateNow := fun _ => 0 |} in
  let m := {| Msg.serverContent := Some
                {| Msg.modelTurn :=
                     Some {| Msg.parts :=
                               [ {| Msg.inlineData :=
                                      Some {| Msg.data := Some (js "AAAA") |} |} ] |};
                   Msg.interrupted := true;
                   Msg.inputTranscription := Some {| Msg.text := Some (js " there") |};
                   Msg.outputTranscription := None;
                   Msg.turnComplete := true |} |} in
  let s := appendUser {| Msg.text := Some (js "Hi") |} initialApp in
  let s' := final (onmessage env m s) in
  isModelTalking s' = true /\
  transcript s' = [] /\
  user (transcriptionBuffer s') = js "Hi".
Proof.
  intros env m s s'. unfold s'.
  rewrite (onmessage_payload_not_decoded env m (js "AAAA")
             {| message := Some (js "bad payload") |} s eq_refl eq_refl eq_refl).
  repeat split.
Defined.

(** ** The error message *)

Lemma messageOr_truthy err default :
  JsString.truthy default = true -> JsString.truthy (messageOr err default) = true.
Proof.
  intros Hd. unfold messageOr. destruct (message err) as [m|]; [|exact Hd].
  destruct (JsString.truthy m) eqn:Hm; [exact Hm | exact Hd].
Qed.

Lemma onopen_error stream s : error (onopen stream s) = error s.
Proof. unfold onopen. cbn. destruct (audioContexts s); reflexivity. Qed.

Lemma startSession_error_shown env :
  handler_rel
    (keeps (fun s => forall m, error s = Some m -> JsString.truthy m = true))
    (startSession env).
Proof.
  unfold startSession, startBody, startCatch, initAudio, acquireStream, openSession.
  handler_rel_auto; unfold keeps; intros H m' Hm'; rewrite ?onopen_error in Hm';
    cbn in Hm';
    first [ apply H; exact Hm'
          | discriminate Hm'
          | injection Hm' as <-; apply messageOr_truthy; reflexivity ].
Qed.

Lemma step_error_shown s e :
  (forall m, error s = Some m -> JsString.truthy m = true) ->
  (forall m, error (step s e) = Some m -> JsString.truthy m = true).
Proof.
  revert s e.
  apply (step_cases (fun s => forall m, error s = Some m -> JsString.truthy m = true)).
  - intros env s. apply startSession_error_shown.
  - intros s H. unfold stopSession. destruct (sessionRef s); exact H.
  - intros stream s H. rewrite onopen_error. exact H.
  - intros env m s H. destruct (onmessage_controller env m s) as (_ & He & _).
    rewrite He. exact H.
  - intros s _ m [= <-]. reflexivity.
  - intros s H. exact H.
  - intros source s H. unfold onended. cbn. destruct (decide _); exact H.
  - intros stream s H. exact H.
Qed.

(** X17. In every run of the component from its initial state the error
    message is null or a string that is not empty, so the error banner is
    rendered exactly when there is an error message; in particular a start
    that fails always shows one, the standard text when the error thrown
    has no message or an empty one. *)
Theorem error_message_shown (es : list Event) :
  (forall m, error (run initialApp es) = Some m -> JsString.truthy m = true) /\
  errorBanner (run initialApp es) = error (run initialApp es).
Proof.
  assert (H : forall m, error (run initialApp es) = Some m -> JsString.truthy m = true).
  { apply (run_invariant
             (fun s => forall m, error s = Some m -> JsString.truthy m = true)).
    - apply step_error_shown.
    - discriminate. }
  split; [exact H|].
  unfold errorBanner. destruct (error (run initialApp es)) as [m|]; [|reflexivity].
  rewrite (H m eq_refl). reflexivity.
Qed.

(** ** The session handle *)

Lemma startBody_failure env s e :
  firstRejection env s = Some e ->
  exists s',
    startBody env s = Thrown e s' /\
    sessionRef s' = sessionRef s /\
    sessions s' = sessions s.
Proof.
  unfold startBody, firstRejection, initAudio, acquireStream, openSession.
  unfold_handler.
  destruct s as [st talking tr err [[i o]|] cursor sources ref buf cleanup ns ss cs];
    cbn [audioContexts setStatus setError].
  - destruct i, o;
      cbn [input output resumed_input resumed_output audioContexts set_audioContexts];
      settle_awaits env; try discriminate; intros [= <-];
      try (destruct (connectOpens env)); eexists; (split; [reflexivity|]);
      split; reflexivity.
  - destruct (newAudioContexts env) as [[i o]|e0];
      [|intros [= <-]; eexists; (split; [reflexivity|]); split; reflexivity].
    cbn [audioContexts set_audioContexts].
    destruct i, o;
      cbn [input output resumed_input resumed_output audioContexts set_audioContexts];
      settle_awaits env; try discriminate; intros [= <-];
      try (destruct (connectOpens env)); eexists; (split; [reflexivity|]);
      split; reflexivity.
Qed.

Lemma startSession_ref_open env s :
  session_ref_open s -> session_ref_open (final (startSession env s)).
Proof.
  intros Hok. unfold startSession, tryCatch.
  destruct (firstRejection env s) as [e|] eqn:Hrej.
  - destruct (startBody_failure env s e Hrej) as (s1 & Hbody & Href & Hses).
    rewrite Hbody. unfold startCatch. unfold_handler. cbn [final].
    intros h Hh. cbn in Hh |- *. rewrite Hses. apply Hok. rewrite <- Href. exact Hh.
  - destruct (startBody_success env s Hrej)
      as (s1 & Hbody & _ & _ & _ & Href & Hses & _).
    rewrite Hbody. cbn [final]. intros h Hh. rewrite Href in Hh. injection Hh as <-.
    rewrite Hses. apply lookup_insert_eq.
Qed.

Lemma step_ref_open s e : session_ref_open s -> session_ref_open (step s e).
Proof.
  revert s e. apply step_cases.
  - apply startSession_ref_open.
  - intros s _ h Hh. exfalso. revert Hh.
    unfold stopSession. destruct (sessionRef s) eqn:E; cbn; [discriminate|].
    rewrite E. discriminate.
  - intros stream s H h Hh. rewrite onopen_sessions. apply H.
    revert Hh. unfold onopen. cbn. destruct (audioContexts s); intros Hh; exact Hh.
  - intros env m s H h Hh.
    destruct (onmessage_controller env m s) as (_ & _ & _ & Href & Hses & _).
    rewrite Hses. apply H. rewrite <- Href. exact Hh.
  - intros s H. exact H.
  - intros s H. exact H.
  - intros source s H. unfold onended. cbn. destruct (decide _); exact H.
  - intros stream s H. exact H.
Qed.

(** X18. In every run of the component from its initial state the
    session ref is null or holds a handle on which [close()] has not been
    called; [stopSession], which closes the handle it finds in the ref,
    therefore never closes a handle twice. *)
Theorem session_ref_never_closed (es : list Event) :
  session_ref_open (run initialApp es).
Proof.
  apply (run_invariant session_ref_open).
  - intros s e. apply step_ref_open.
  - intros h. discriminate.
Qed.

(** ** Becoming connected *)

Lemma startSession_not_connected env s :
  connectOpens env = false -> status (final (startSession env s)) <> CONNECTED.
Proof.
  intros Hopens. destruct (firstRejection env s) as [e|] eqn:Hrej.
  - rewrite <- startBody_throws_first_rejection in Hrej.
    destruct (startSession_caught env s e Hrej) as (_ & _ & Hst). rewrite Hst. discriminate.
  - destruct (startBody_success env s Hrej) as (s1 & Hbody & Hst & _).
    unfold startSession, tryCatch. rewrite Hbody. cbn [final].
    rewrite Hst, Hopens. discriminate.
Qed.

(** X19. The status becomes [CONNECTED] only through the [onopen]
    callback: a callback after which the status is [CONNECTED] either found
    it so or is [onopen] itself, alone or called during the connection of a
    start. *)
Theorem connected_only_by_onopen (s : App) (e : Event)
  (Hconnected : status (step s e) = CONNECTED) :
  status s = CONNECTED \/ opens e = true.
Proof.
  destruct e as [env|env| |stream|env m| | |source| ]; cbn [step opens] in *.
  - unfold onClick in Hconnected. destruct (status s) eqn:Hs;
      try (destruct (connectOpens env) eqn:Ho; [right; reflexivity|];
           exfalso; exact (startSession_not_connected env s Ho Hconnected)).
    + rewrite Hs in Hconnected. discriminate.
    + left. reflexivity.
  - destruct (connectOpens env) eqn:Ho; [right; reflexivity|].
    exfalso. exact (startSession_not_connected env s Ho Hconnected).
  - discriminate.
  - right. reflexivity.
  - left. destruct (onmessage_controller env m s) as (Hst & _). rewrite <- Hst. exact Hconnected.
  - discriminate.
  - discriminate.
  - left. revert Hconnected. unfold onended. cbn. destruct (decide _); intros H; exact H.
  - exfalso. revert Hconnected. unfold unmount.
    destruct (_audioCleanup (stopSession s)); discriminate.
Qed.

Lemma connected_only_by_onopen_witness :
  status initialApp = CONNECTED \/ opens (Click (startsFine true)) = true.
Proof.
  exact (connected_only_by_onopen initialApp (Click (startsFine true)) eq_refl).
Defined.

(** ** The rendering of the transcript *)




(** Without that order the keys can coincide: two turns completed within
    the same millisecond, the first with a model entry only and the second
    with a user entry only, give the two rows the key 1001. *)
Example transcript_keys_coincide :
  let modelOnly := {| Msg.serverContent := Some
                        {| Msg.modelTurn := None;
                           Msg.interrupted := false;
                           Msg.inputTranscription := None;
                           Msg.outputTranscription := Some {| Msg.text := Some (js "Hello!") |};
                           Msg.turnComplete := true |} |} in
  let userOnly := {| Msg.serverContent := Some
                       {| Msg.modelTurn := None;
                          Msg.interrupted := false;
                          Msg.inputTranscription := Some {| Msg.text := Some (js "Hi") |};
                          Msg.outputTranscription := None;
                          Msg.turnComplete := true |} |} in
  let env := {| currentTime := 0; decoded := Resolves (sampleBuffer 0);
                dateNow := fun _ => 1000 |} in
  let s := run initialApp [OnMessage env modelOnly; OnMessage env userOnly] in
  match TranscriptView.render (transcript s) with
  | TranscriptView.Placeholder => False
  | TranscriptView.Rows rows => TranscriptView.key <$> rows = [1001; 1001]
  end.
Proof. reflexivity. Qed.
